(** * A shallow embedding of the simulation layer of [game.js]

    The development follows the source file top to bottom: the process-wide
    state, the entity classes ([Player], [Bullet], [Enemy], [Particle]), the
    helpers ([addShake], [spawnEnemy], [spawnParticles]), [checkCollisions],
    [restart], the input handlers and the update half of [gameLoop].

    Numbers.  JavaScript numbers are modelled by exact rationals [Q]; the
    variables the program only uses as integer counters ([score], [wave],
    [combo], [enemiesPerWave], the enemy [hp]) are [Z].  Rounding of IEEE
    doubles is therefore not part of the model.  Left out for that reason
    are statements that turn on a comparison sitting exactly on its
    threshold (a tick exactly one cooldown after the last shot, a timer run
    down to zero by a sum of steps), on the closed form of an iterated sum
    or product, or on a strict bound that a rounded sum could reach.

    Host.  What the browser supplies is collected in the record [Host]:
    [Math.sqrt], [Math.cos], [Math.sin], [Math.atan2], the sequence of values
    returned by [Math.random], the canvas size, whether an audio context
    could be created, and [String.prototype.toLowerCase].

    Faults.  Two things are tracked that JavaScript itself would not stop on
    or would stop on with an exception: a division whose divisor is zero
    ([DivisionByZero]) and a property read on [undefined]
    ([UndefinedAccess]).  Functions that may run into either return a
    [Result].

    Not modelled: canvas drawing ([render] methods and the HUD, which only
    read the state), the [fps] counter of the debug overlay, sound synthesis
    (a call of [playSound] that reaches the oscillator is logged in
    [sounds]), and window resizing. *)

From Stdlib Require Import ZArith QArith Qminmax Qround Lqa Lia Bool String Ascii.
From stdpp Require Import base option list strings gmap.

Open Scope Q_scope.

(** ** Numbers and comparisons *)

Definition Qltb (a b : Q) : bool := negb (Qle_bool b a).
Definition Qleb (a b : Q) : bool := Qle_bool a b.
Definition Qgtb (a b : Q) : bool := Qltb b a.
Definition Qgeb (a b : Q) : bool := Qleb b a.
Definition Qneb (a b : Q) : bool := negb (Qeq_bool a b).

Infix "<?" := Qltb (at level 70, no associativity) : Q_scope.
Infix "<=?" := Qleb (at level 70, no associativity) : Q_scope.
Infix ">?" := Qgtb (at level 70, no associativity) : Q_scope.
Infix ">=?" := Qgeb (at level 70, no associativity) : Q_scope.

(** ** Faults and results *)

Inductive Fault : Set :=
| DivisionByZero
| UndefinedAccess.

Inductive Result (A : Type) : Type :=
| Ok (a : A)
| Err (f : Fault).
Arguments Ok {A} a.
Arguments Err {A} f.

Global Instance Result_ret : MRet Result := fun A a => Ok a.
Global Instance Result_bind : MBind Result := fun A B k r =>
  match r with
  | Ok a => k a
  | Err f => Err f
  end.

(** [a / b] as the program writes it, with the zero divisor made visible. *)
Definition divide (a b : Q) : Result Q :=
  if Qeq_bool b 0 then Err DivisionByZero else Ok (a / b).

(** ** The host environment *)

Record Host := {
  Math_sqrt : Q -> Q;
  Math_cos : Q -> Q;
  Math_sin : Q -> Q;
  Math_atan2 : Q -> Q -> Q;
  (** the value returned by the [n]-th call of [Math.random] *)
  Math_random : nat -> Q;
  canvas_width : Q;
  canvas_height : Q;
  (** [window.devicePixelRatio || 1], never zero *)
  dpr : Q;
  (** whether [new AudioContext()] succeeded *)
  audioContext : bool;
  (** [performance.now()] when the script is loaded *)
  performance_now : Q;
  (** [String.prototype.toLowerCase], as the browser implements it *)
  String_toLowerCase : string -> string
}.

(** ** Data model *)

Record Vec2 := { vx : Q; vy : Q }.

Inductive GameState : Set := Playing | Paused | GameOver.

Inductive OscillatorType : Set := sine | square | sawtooth.

(** An oscillator started by [playSound]. *)
Record Sound := {
  pitch : Q;
  duration : Q;
  type : OscillatorType;
  volume : Q
}.

Record Mouse := {
  mouse_x : Q;
  mouse_y : Q;
  down : bool;
  worldX : Q;
  worldY : Q
}.

Module Ghost.
Record t := { x : Q; y : Q; angle : Q; alpha : Q; age : Q }.
End Ghost.

Module Player.
Record t := {
  x : Q;
  y : Q;
  radius : Q;
  speed : Q;
  angle : Q;
  hp : Q;
  maxHp : Q;
  invulnerable : Q;
  invulnerableTime : Q;
  dashActive : bool;
  dashTimer : Q;
  dashDuration : Q;
  dashCooldown : Q;
  dashCooldownTime : Q;
  dashSpeed : Q;
  dashDirection : Vec2;
  ghostAfterimages : list Ghost.t;
  recoilOffset : Q
}.

Definition set_x (v : Q) (r : t) : t :=
  Build_t v (y r) (radius r) (speed r) (angle r) (hp r) (maxHp r) (invulnerable r)
    (invulnerableTime r) (dashActive r) (dashTimer r) (dashDuration r) (dashCooldown r)
    (dashCooldownTime r) (dashSpeed r) (dashDirection r) (ghostAfterimages r)
    (recoilOffset r).
Definition set_y (v : Q) (r : t) : t :=
  Build_t (x r) v (radius r) (speed r) (angle r) (hp r) (maxHp r) (invulnerable r)
    (invulnerableTime r) (dashActive r) (dashTimer r) (dashDuration r) (dashCooldown r)
    (dashCooldownTime r) (dashSpeed r) (dashDirection r) (ghostAfterimages r)
    (recoilOffset r).
Definition set_angle (v : Q) (r : t) : t :=
  Build_t (x r) (y r) (radius r) (speed r) v (hp r) (maxHp r) (invulnerable r)
    (invulnerableTime r) (dashActive r) (dashTimer r) (dashDuration r) (dashCooldown r)
    (dashCooldownTime r) (dashSpeed r) (dashDirection r) (ghostAfterimages r)
    (recoilOffset r).
Definition set_hp (v : Q) (r : t) : t :=
  Build_t (x r) (y r) (radius r) (speed r) (angle r) v (maxHp r) (invulnerable r)
    (invulnerableTime r) (dashActive r) (dashTimer r) (dashDuration r) (dashCooldown r)
    (dashCooldownTime r) (dashSpeed r) (dashDirection r) (ghostAfterimages r)
    (recoilOffset r).
Definition set_invulnerable (v : Q) (r : t) : t :=
  Build_t (x r) (y r) (radius r) (speed r) (angle r) (hp r) (maxHp r) v
    (invulnerableTime r) (dashActive r) (dashTimer r) (dashDuration r) (dashCooldown r)
    (dashCooldownTime r) (dashSpeed r) (dashDirection r) (ghostAfterimages r)
    (recoilOffset r).
Definition set_dashActive (v : bool) (r : t) : t :=
  Build_t (x r) (y r) (radius r) (speed r) (angle r) (hp r) (maxHp r) (invulnerable r)
    (invulnerableTime r) v (dashTimer r) (dashDuration r) (dashCooldown r)
    (dashCooldownTime r) (dashSpeed r) (dashDirection r) (ghostAfterimages r)
    (recoilOffset r).
Definition set_dashTimer (v : Q) (r : t) : t :=
  Build_t (x r) (y r) (radius r) (speed r) (angle r) (hp r) (maxHp r) (invulnerable r)
    (invulnerableTime r) (dashActive r) v (dashDuration r) (dashCooldown r)
    (dashCooldownTime r) (dashSpeed r) (dashDirection r) (ghostAfterimages r)
    (recoilOffset r).
Definition set_dashCooldown (v : Q) (r : t) : t :=
  Build_t (x r) (y r) (radius r) (speed r) (angle r) (hp r) (maxHp r) (invulnerable r)
    (invulnerableTime r) (dashActive r) (dashTimer r) (dashDuration r) v
    (dashCooldownTime r) (dashSpeed r) (dashDirection r) (ghostAfterimages r)
    (recoilOffset r).
Definition set_dashDirection (v : Vec2) (r : t) : t :=
  Build_t (x r) (y r) (radius r) (speed r) (angle r) (hp r) (maxHp r) (invulnerable r)
    (invulnerableTime r) (dashActive r) (dashTimer r) (dashDuration r) (dashCooldown r)
    (dashCooldownTime r) (dashSpeed r) v (ghostAfterimages r) (recoilOffset r).
Definition set_ghostAfterimages (v : list Ghost.t) (r : t) : t :=
  Build_t (x r) (y r) (radius r) (speed r) (angle r) (hp r) (maxHp r) (invulnerable r)
    (invulnerableTime r) (dashActive r) (dashTimer r) (dashDuration r) (dashCooldown r)
    (dashCooldownTime r) (dashSpeed r) (dashDirection r) v (recoilOffset r).
Definition set_recoilOffset (v : Q) (r : t) : t :=
  Build_t (x r) (y r) (radius r) (speed r) (angle r) (hp r) (maxHp r) (invulnerable r)
    (invulnerableTime r) (dashActive r) (dashTimer r) (dashDuration r) (dashCooldown r)
    (dashCooldownTime r) (dashSpeed r) (dashDirection r) (ghostAfterimages r) v.
End Player.

Module Bullet.
Record t := {
  x : Q;
  y : Q;
  prevX : Q;
  prevY : Q;
  angle : Q;
  speed : Q;
  radius : Q;
  lifetime : Q;
  age : Q
}.

(** [constructor(x, y, angle)] *)
Definition new (x y angle : Q) : t :=
  {| x := x; y := y; prevX := x; prevY := y; angle := angle;
     speed := 600; radius := 4; lifetime := 2; age := 0 |}.
End Bullet.

Module Enemy.
Record t := {
  x : Q;
  y : Q;
  radius : Q;
  speed : Q;
  hp : Z;
  hitFlash : Q
}.

Definition set_hitFlash (v : Q) (e : t) : t :=
  Build_t (x e) (y e) (radius e) (speed e) (hp e) v.
Definition set_pos (nx ny : Q) (e : t) : t :=
  Build_t nx ny (radius e) (speed e) (hp e) (hitFlash e).
End Enemy.

Module Particle.
Record t := {
  x : Q;
  y : Q;
  vx : Q;
  vy : Q;
  lifetime : Q;
  age : Q;
  size : Q;
  (** hue and lightness of [hsl(hue, 100%, lightness%)] *)
  color : Q * Q
}.
End Particle.

(** The variables of the enclosing function, in the order of their
    declaration; [sounds] and [randomCalls] record the calls that reached the
    audio context and the number of calls of [Math.random] so far. *)
Record Game := {
  gameState : GameState;
  paused : bool;
  muted : bool;
  debug : bool;
  score : Z;
  wave : Z;
  screenShake : Vec2;
  hitstop : Q;
  combo : Z;
  comboTimer : Q;
  keys : gmap string bool;
  mouse : Mouse;
  player : Player.t;
  bullets : list Bullet.t;
  enemies : list Enemy.t;
  particles : list Particle.t;
  lastShotTime : Q;
  enemySpawnTimer : Q;
  enemySpawnRate : Q;
  enemiesPerWave : Z;
  waveBannerTime : Q;
  lastTime : Q;
  sounds : list Sound;
  randomCalls : nat
}.

Definition set_gameState (v : GameState) (r : Game) : Game :=
  Build_Game v (paused r) (muted r) (debug r) (score r) (wave r) (screenShake r)
    (hitstop r) (combo r) (comboTimer r) (keys r) (mouse r) (player r) (bullets r)
    (enemies r) (particles r) (lastShotTime r) (enemySpawnTimer r) (enemySpawnRate r)
    (enemiesPerWave r) (waveBannerTime r) (lastTime r) (sounds r) (randomCalls r).
Definition set_paused (v : bool) (r : Game) : Game :=
  Build_Game (gameState r) v (muted r) (debug r) (score r) (wave r) (screenShake r)
    (hitstop r) (combo r) (comboTimer r) (keys r) (mouse r) (player r) (bullets r)
    (enemies r) (particles r) (lastShotTime r) (enemySpawnTimer r) (enemySpawnRate r)
    (enemiesPerWave r) (waveBannerTime r) (lastTime r) (sounds r) (randomCalls r).
Definition set_muted (v : bool) (r : Game) : Game :=
  Build_Game (gameState r) (paused r) v (debug r) (score r) (wave r) (screenShake r)
    (hitstop r) (combo r) (comboTimer r) (keys r) (mouse r) (player r) (bullets r)
    (enemies r) (particles r) (lastShotTime r) (enemySpawnTimer r) (enemySpawnRate r)
    (enemiesPerWave r) (waveBannerTime r) (lastTime r) (sounds r) (randomCalls r).
Definition set_debug (v : bool) (r : Game) : Game :=
  Build_Game (gameState r) (paused r) (muted r) v (score r) (wave r) (screenShake r)
    (hitstop r) (combo r) (comboTimer r) (keys r) (mouse r) (player r) (bullets r)
    (enemies r) (particles r) (lastShotTime r) (enemySpawnTimer r) (enemySpawnRate r)
    (enemiesPerWave r) (waveBannerTime r) (lastTime r) (sounds r) (randomCalls r).
Definition set_score (v : Z) (r : Game) : Game :=
  Build_Game (gameState r) (paused r) (muted r) (debug r) v (wave r) (screenShake r)
    (hitstop r) (combo r) (comboTimer r) (keys r) (mouse r) (player r) (bullets r)
    (enemies r) (particles r) (lastShotTime r) (enemySpawnTimer r) (enemySpawnRate r)
    (enemiesPerWave r) (waveBannerTime r) (lastTime r) (sounds r) (randomCalls r).
Definition set_wave (v : Z) (r : Game) : Game :=
  Build_Game (gameState r) (paused r) (muted r) (debug r) (score r) v (screenShake r)
    (hitstop r) (combo r) (comboTimer r) (keys r) (mouse r) (player r) (bullets r)
    (enemies r) (particles r) (lastShotTime r) (enemySpawnTimer r) (enemySpawnRate r)
    (enemiesPerWave r) (waveBannerTime r) (lastTime r) (sounds r) (randomCalls r).
Definition set_screenShake (v : Vec2) (r : Game) : Game :=
  Build_Game (gameState r) (paused r) (muted r) (debug r) (score r) (wave r) v (hitstop
    r) (combo r) (comboTimer r) (keys r) (mouse r) (player r) (bullets r) (enemies r)
    (particles r) (lastShotTime r) (enemySpawnTimer r) (enemySpawnRate r)
    (enemiesPerWave r) (waveBannerTime r) (lastTime r) (sounds r) (randomCalls r).
Definition set_hitstop (v : Q) (r : Game) : Game :=
  Build_Game (gameState r) (paused r) (muted r) (debug r) (score r) (wave r)
    (screenShake r) v (combo r) (comboTimer r) (keys r) (mouse r) (player r) (bullets r)
    (enemies r) (particles r) (lastShotTime r) (enemySpawnTimer r) (enemySpawnRate r)
    (enemiesPerWave r) (waveBannerTime r) (lastTime r) (sounds r) (randomCalls r).
Definition set_combo (v : Z) (r : Game) : Game :=
  Build_Game (gameState r) (paused r) (muted r) (debug r) (score r) (wave r)
    (screenShake r) (hitstop r) v (comboTimer r) (keys r) (mouse r) (player r) (bullets
    r) (enemies r) (particles r) (lastShotTime r) (enemySpawnTimer r) (enemySpawnRate r)
    (enemiesPerWave r) (waveBannerTime r) (lastTime r) (sounds r) (randomCalls r).
Definition set_comboTimer (v : Q) (r : Game) : Game :=
  Build_Game (gameState r) (paused r) (muted r) (debug r) (score r) (wave r)
    (screenShake r) (hitstop r) (combo r) v (keys r) (mouse r) (player r) (bullets r)
    (enemies r) (particles r) (lastShotTime r) (enemySpawnTimer r) (enemySpawnRate r)
    (enemiesPerWave r) (waveBannerTime r) (lastTime r) (sounds r) (randomCalls r).
Definition set_keys (v : gmap string bool) (r : Game) : Game :=
  Build_Game (gameState r) (paused r) (muted r) (debug r) (score r) (wave r)
    (screenShake r) (hitstop r) (combo r) (comboTimer r) v (mouse r) (player r) (bullets
    r) (enemies r) (particles r) (lastShotTime r) (enemySpawnTimer r) (enemySpawnRate r)
    (enemiesPerWave r) (waveBannerTime r) (lastTime r) (sounds r) (randomCalls r).
Definition set_mouse (v : Mouse) (r : Game) : Game :=
  Build_Game (gameState r) (paused r) (muted r) (debug r) (score r) (wave r)
    (screenShake r) (hitstop r) (combo r) (comboTimer r) (keys r) v (player r) (bullets
    r) (enemies r) (particles r) (lastShotTime r) (enemySpawnTimer r) (enemySpawnRate r)
    (enemiesPerWave r) (waveBannerTime r) (lastTime r) (sounds r) (randomCalls r).
Definition set_player (v : Player.t) (r : Game) : Game :=
  Build_Game (gameState r) (paused r) (muted r) (debug r) (score r) (wave r)
    (screenShake r) (hitstop r) (combo r) (comboTimer r) (keys r) (mouse r) v (bullets
    r) (enemies r) (particles r) (lastShotTime r) (enemySpawnTimer r) (enemySpawnRate r)
    (enemiesPerWave r) (waveBannerTime r) (lastTime r) (sounds r) (randomCalls r).
Definition set_bullets (v : list Bullet.t) (r : Game) : Game :=
  Build_Game (gameState r) (paused r) (muted r) (debug r) (score r) (wave r)
    (screenShake r) (hitstop r) (combo r) (comboTimer r) (keys r) (mouse r) (player r) v
    (enemies r) (particles r) (lastShotTime r) (enemySpawnTimer r) (enemySpawnRate r)
    (enemiesPerWave r) (waveBannerTime r) (lastTime r) (sounds r) (randomCalls r).
Definition set_enemies (v : list Enemy.t) (r : Game) : Game :=
  Build_Game (gameState r) (paused r) (muted r) (debug r) (score r) (wave r)
    (screenShake r) (hitstop r) (combo r) (comboTimer r) (keys r) (mouse r) (player r)
    (bullets r) v (particles r) (lastShotTime r) (enemySpawnTimer r) (enemySpawnRate r)
    (enemiesPerWave r) (waveBannerTime r) (lastTime r) (sounds r) (randomCalls r).
Definition set_particles (v : list Particle.t) (r : Game) : Game :=
  Build_Game (gameState r) (paused r) (muted r) (debug r) (score r) (wave r)
    (screenShake r) (hitstop r) (combo r) (comboTimer r) (keys r) (mouse r) (player r)
    (bullets r) (enemies r) v (lastShotTime r) (enemySpawnTimer r) (enemySpawnRate r)
    (enemiesPerWave r) (waveBannerTime r) (lastTime r) (sounds r) (randomCalls r).
Definition set_lastShotTime (v : Q) (r : Game) : Game :=
  Build_Game (gameState r) (paused r) (muted r) (debug r) (score r) (wave r)
    (screenShake r) (hitstop r) (combo r) (comboTimer r) (keys r) (mouse r) (player r)
    (bullets r) (enemies r) (particles r) v (enemySpawnTimer r) (enemySpawnRate r)
    (enemiesPerWave r) (waveBannerTime r) (lastTime r) (sounds r) (randomCalls r).
Definition set_enemySpawnTimer (v : Q) (r : Game) : Game :=
  Build_Game (gameState r) (paused r) (muted r) (debug r) (score r) (wave r)
    (screenShake r) (hitstop r) (combo r) (comboTimer r) (keys r) (mouse r) (player r)
    (bullets r) (enemies r) (particles r) (lastShotTime r) v (enemySpawnRate r)
    (enemiesPerWave r) (waveBannerTime r) (lastTime r) (sounds r) (randomCalls r).
Definition set_enemySpawnRate (v : Q) (r : Game) : Game :=
  Build_Game (gameState r) (paused r) (muted r) (debug r) (score r) (wave r)
    (screenShake r) (hitstop r) (combo r) (comboTimer r) (keys r) (mouse r) (player r)
    (bullets r) (enemies r) (particles r) (lastShotTime r) (enemySpawnTimer r) v
    (enemiesPerWave r) (waveBannerTime r) (lastTime r) (sounds r) (randomCalls r).
Definition set_enemiesPerWave (v : Z) (r : Game) : Game :=
  Build_Game (gameState r) (paused r) (muted r) (debug r) (score r) (wave r)
    (screenShake r) (hitstop r) (combo r) (comboTimer r) (keys r) (mouse r) (player r)
    (bullets r) (enemies r) (particles r) (lastShotTime r) (enemySpawnTimer r)
    (enemySpawnRate r) v (waveBannerTime r) (lastTime r) (sounds r) (randomCalls r).
Definition set_waveBannerTime (v : Q) (r : Game) : Game :=
  Build_Game (gameState r) (paused r) (muted r) (debug r) (score r) (wave r)
    (screenShake r) (hitstop r) (combo r) (comboTimer r) (keys r) (mouse r) (player r)
    (bullets r) (enemies r) (particles r) (lastShotTime r) (enemySpawnTimer r)
    (enemySpawnRate r) (enemiesPerWave r) v (lastTime r) (sounds r) (randomCalls r).
Definition set_lastTime (v : Q) (r : Game) : Game :=
  Build_Game (gameState r) (paused r) (muted r) (debug r) (score r) (wave r)
    (screenShake r) (hitstop r) (combo r) (comboTimer r) (keys r) (mouse r) (player r)
    (bullets r) (enemies r) (particles r) (lastShotTime r) (enemySpawnTimer r)
    (enemySpawnRate r) (enemiesPerWave r) (waveBannerTime r) v (sounds r) (randomCalls
    r).
Definition set_sounds (v : list Sound) (r : Game) : Game :=
  Build_Game (gameState r) (paused r) (muted r) (debug r) (score r) (wave r)
    (screenShake r) (hitstop r) (combo r) (comboTimer r) (keys r) (mouse r) (player r)
    (bullets r) (enemies r) (particles r) (lastShotTime r) (enemySpawnTimer r)
    (enemySpawnRate r) (enemiesPerWave r) (waveBannerTime r) (lastTime r) v (randomCalls
    r).
Definition set_randomCalls (v : nat) (r : Game) : Game :=
  Build_Game (gameState r) (paused r) (muted r) (debug r) (score r) (wave r)
    (screenShake r) (hitstop r) (combo r) (comboTimer r) (keys r) (mouse r) (player r)
    (bullets r) (enemies r) (particles r) (lastShotTime r) (enemySpawnTimer r)
    (enemySpawnRate r) (enemiesPerWave r) (waveBannerTime r) (lastTime r) (sounds r) v.
(** Variables that are declared with [let] and never assigned again. *)
Definition shakeDecay : Q := 0.92.
Definition comboResetTime : Q := 2.
Definition shootCooldown : Q := 0.15.
Definition waveBannerDuration : Q := 2.

Section Simulation.

Variable host : Host.

(** [canvas.width / dpr] and [canvas.height / dpr]: the arena. *)
Definition arenaWidth : Q := canvas_width host / dpr host.
Definition arenaHeight : Q := canvas_height host / dpr host.

(** [keys[k]] read as a condition; an absent property is [undefined]. *)
Definition keyHeld (ks : gmap string bool) (k : string) : bool :=
  match ks !! k with
  | Some b => b
  | None => false
  end.

(** [Math.random()] *)
Definition random (s : Game) : Q * Game :=
  (Math_random host (randomCalls s), set_randomCalls (S (randomCalls s)) s).

(** ** Audio *)

Definition playSound (frequency duration : Q) (type : OscillatorType)
    (volume pitchVariation : Q) (s : Game) : Game :=
  if muted s || negb (audioContext host) then s
  else
    let '(pitch, s) :=
      if pitchVariation >? 0
      then let '(r, s) := random s in (frequency + (r - 0.5) * pitchVariation, s)
      else (frequency, s) in
    set_sounds (sounds s ++ [Build_Sound pitch duration type volume]) s.

(** ** Constructors that read the host *)

Definition new_Player : Player.t :=
  {| Player.x := canvas_width host / (2 * dpr host);
     Player.y := canvas_height host / (2 * dpr host);
     Player.radius := 15;
     Player.speed := 300;
     Player.angle := 0;
     Player.hp := 100;
     Player.maxHp := 100;
     Player.invulnerable := 0;
     Player.invulnerableTime := 0.7;
     Player.dashActive := false;
     Player.dashTimer := 0;
     Player.dashDuration := 0.2;
     Player.dashCooldown := 0;
     Player.dashCooldownTime := 2;
     Player.dashSpeed := 3;
     Player.dashDirection := {| vx := 0; vy := 0 |};
     Player.ghostAfterimages := [];
     Player.recoilOffset := 0 |}.

Definition new_Enemy (s : Game) : Enemy.t * Game :=
  let '(r, s) := random s in
  let side := Qfloor (r * 4) in
  let margin := 50 in
  let '(r, s) := random s in
  let '(x, y) :=
    if (side =? 0)%Z then (- margin, r * canvas_height host / dpr host)
    else if (side =? 1)%Z then
      (canvas_width host / dpr host + margin, r * canvas_height host / dpr host)
    else if (side =? 2)%Z then (r * canvas_width host / dpr host, - margin)
    else (r * canvas_width host / dpr host, canvas_height host / dpr host + margin) in
  let '(r, s) := random s in
  let radius := 12 + r * 8 in
  let '(r, s) := random s in
  let speed := 80 + r * 40 in
  ({| Enemy.x := x; Enemy.y := y; Enemy.radius := radius; Enemy.speed := speed;
      Enemy.hp := 1; Enemy.hitFlash := 0 |}, s).

Definition new_Particle (x y : Q) (s : Game) : Particle.t * Game :=
  let '(r, s) := random s in
  let vx := (r - 0.5) * 200 in
  let '(r, s) := random s in
  let vy := (r - 0.5) * 200 in
  let '(r, s) := random s in
  let size := 2 + r * 3 in
  let '(r, s) := random s in
  let hue := r * 60 in
  let '(r, s) := random s in
  let lightness := 50 + r * 50 in
  ({| Particle.x := x; Particle.y := y; Particle.vx := vx; Particle.vy := vy;
      Particle.lifetime := 0.5; Particle.age := 0; Particle.size := size;
      Particle.color := (hue, lightness) |}, s).

(** ** Helpers *)

Definition addShake (intensity : Q) (s : Game) : Game :=
  let '(r, s) := random s in
  let s := set_screenShake
             {| vx := vx (screenShake s) + (r - 0.5) * intensity * 2;
                vy := vy (screenShake s) |} s in
  let '(r, s) := random s in
  set_screenShake
    {| vx := vx (screenShake s);
       vy := vy (screenShake s) + (r - 0.5) * intensity * 2 |} s.

Definition spawnEnemy (s : Game) : Game :=
  let '(e, s) := new_Enemy s in
  set_enemies (enemies s ++ [e]) s.

Fixpoint spawnParticles (x y : Q) (count : nat) (s : Game) : Game :=
  match count with
  | O => s
  | S n =>
      let '(p, s) := new_Particle x y s in
      spawnParticles x y n (set_particles (particles s ++ [p]) s)
  end.

(** ** Player *)

(** The four [if (keys[..] || keys[..])] lines that build [dx], [dy]. *)
Definition heldDirection (ks : gmap string bool) : Q * Q :=
  let dx := 0 in
  let dy := 0 in
  let dy := if keyHeld ks "w" || keyHeld ks "arrowup" then dy - 1 else dy in
  let dy := if keyHeld ks "s" || keyHeld ks "arrowdown" then dy + 1 else dy in
  let dx := if keyHeld ks "a" || keyHeld ks "arrowleft" then dx - 1 else dx in
  let dx := if keyHeld ks "d" || keyHeld ks "arrowright" then dx + 1 else dx in
  (dx, dy).

(** The filter over [ghostAfterimages]: every ghost ages and fades, the ones
    whose alpha is still positive stay. *)
Definition fadeGhost (dt : Q) (g : Ghost.t) : Ghost.t :=
  {| Ghost.x := Ghost.x g; Ghost.y := Ghost.y g; Ghost.angle := Ghost.angle g;
     Ghost.alpha := Ghost.alpha g - dt * 2; Ghost.age := Ghost.age g + dt |}.

Definition fadeGhosts (dt : Q) (gs : list Ghost.t) : list Ghost.t :=
  List.filter (fun g => Ghost.alpha g >? 0) (List.map (fadeGhost dt) gs).

(** "Update recoil" *)
Definition updateRecoil (dt : Q) (p : Player.t) : Player.t :=
  if Player.recoilOffset p >? 0 then
    let p := Player.set_recoilOffset (Player.recoilOffset p - dt * 20) p in
    if Player.recoilOffset p <? 0 then Player.set_recoilOffset 0 p else p
  else p.

(** "Update dash cooldown" *)
Definition updateDashCooldown (dt : Q) (p : Player.t) : Player.t :=
  if Player.dashCooldown p >? 0
  then Player.set_dashCooldown (Player.dashCooldown p - dt) p
  else p.

Definition dashRequested (s : Game) : bool :=
  (keyHeld (keys s) "shift" || keyHeld (keys s) "shiftleft"
   || keyHeld (keys s) "shiftright")
  && negb (Player.dashActive (player s))
  && (Player.dashCooldown (player s) <=? 0).

(** "Dash activation" *)
Definition dashActivation (s : Game) : Result Game :=
  if dashRequested s then
    let p := player s in
    let '(dx, dy) := heldDirection (keys s) in
    dir ← (if Qneb dx 0 || Qneb dy 0 then
             let len := Math_sqrt host (dx * dx + dy * dy) in
             nx ← divide dx len;
             ny ← divide dy len;
             Ok {| vx := nx; vy := ny |}
           else
             Ok {| vx := Math_cos host (Player.angle p);
                   vy := Math_sin host (Player.angle p) |});
    let p := Player.set_dashDirection dir p in
    let p := Player.set_dashActive true p in
    let p := Player.set_dashTimer (Player.dashDuration p) p in
    let p := Player.set_dashCooldown (Player.dashCooldownTime p) p in
    let p := Player.set_invulnerable (Player.dashDuration p) p in
    let s := set_player p s in
    let s := spawnParticles (Player.x p) (Player.y p) 8 s in
    let s := addShake 3 s in
    Ok (playSound 400 0.2 sawtooth 0.25 100 s)
  else Ok s.

(** "Dash movement" *)
Definition dashMovement (dt : Q) (p : Player.t) : Player.t :=
  if Player.dashActive p then
    let p := Player.set_dashTimer (Player.dashTimer p - dt) p in
    let p := Player.set_ghostAfterimages
               (Player.ghostAfterimages p ++
                [{| Ghost.x := Player.x p; Ghost.y := Player.y p;
                    Ghost.angle := Player.angle p; Ghost.alpha := 0.6;
                    Ghost.age := 0 |}]) p in
    let p := if (5 <? length (Player.ghostAfterimages p))%nat
             then Player.set_ghostAfterimages (tail (Player.ghostAfterimages p)) p
             else p in
    if Player.dashTimer p <=? 0 then Player.set_dashActive false p
    else
      let p := Player.set_x
                 (Player.x p
                  + vx (Player.dashDirection p) * Player.speed p * Player.dashSpeed p * dt)
                 p in
      Player.set_y
        (Player.y p
         + vy (Player.dashDirection p) * Player.speed p * Player.dashSpeed p * dt)
        p
  else
    Player.set_ghostAfterimages (fadeGhosts dt (Player.ghostAfterimages p)) p.

(** "Normal movement" *)
Definition normalMovement (ks : gmap string bool) (dt : Q) (p : Player.t)
    : Result Player.t :=
  if negb (Player.dashActive p) then
    let '(dx, dy) := heldDirection ks in
    if Qneb dx 0 || Qneb dy 0 then
      let len := Math_sqrt host (dx * dx + dy * dy) in
      dx ← divide dx len;
      dy ← divide dy len;
      let p := Player.set_x (Player.x p + dx * Player.speed p * dt) p in
      Ok (Player.set_y (Player.y p + dy * Player.speed p * dt) p)
    else Ok p
  else Ok p.

(** "Keep in bounds" *)
Definition keepInBounds (p : Player.t) : Player.t :=
  let margin := Player.radius p in
  let p := Player.set_x
             (Qmax margin (Qmin (canvas_width host / dpr host - margin) (Player.x p)))
             p in
  Player.set_y
    (Qmax margin (Qmin (canvas_height host / dpr host - margin) (Player.y p))) p.

(** "Aim at mouse" *)
Definition aimAtMouse (m : Mouse) (p : Player.t) : Player.t :=
  let dx2 := worldX m - Player.x p in
  let dy2 := worldY m - Player.y p in
  Player.set_angle (Math_atan2 host dy2 dx2) p.

(** "Update invulnerability" *)
Definition updateInvulnerability (dt : Q) (p : Player.t) : Player.t :=
  if (Player.invulnerable p >? 0) && negb (Player.dashActive p)
  then Player.set_invulnerable (Player.invulnerable p - dt) p
  else p.

(** [Player.update(dt)], on the player of the state. *)
Definition Player_update (dt : Q) (s : Game) : Result Game :=
  let s := set_player (updateDashCooldown dt (player s)) s in
  s ← dashActivation s;
  let p := dashMovement dt (player s) in
  let p := updateRecoil dt p in
  p ← normalMovement (keys s) dt p;
  let p := keepInBounds p in
  let p := aimAtMouse (mouse s) p in
  let p := updateInvulnerability dt p in
  Ok (set_player p s).

(** [Player.takeDamage(amount)]: the returned flag and the state after. *)
Definition Player_takeDamage (amount : Q) (s : Game) : bool * Game :=
  let p := player s in
  if (Player.invulnerable p >? 0) || Player.dashActive p then (false, s)
  else
    let p := Player.set_hp (Player.hp p - amount) p in
    let p := Player.set_invulnerable (Player.invulnerableTime p) p in
    let s := set_player p s in
    let s := addShake 6 s in
    let s := set_hitstop 0.03 s in
    let s := playSound 150 0.08 square 0.4 0 s in
    if Player.hp (player s) <=? 0 then
      let s := set_player (Player.set_hp 0 (player s)) s in
      let s := playSound 80 0.4 sawtooth 0.5 0 s in
      (true, s)
    else (false, s).

(** ** Bullet *)

Definition Bullet_update (dt : Q) (b : Bullet.t) : Bullet.t :=
  {| Bullet.x := Bullet.x b + Math_cos host (Bullet.angle b) * Bullet.speed b * dt;
     Bullet.y := Bullet.y b + Math_sin host (Bullet.angle b) * Bullet.speed b * dt;
     Bullet.prevX := Bullet.x b;
     Bullet.prevY := Bullet.y b;
     Bullet.angle := Bullet.angle b;
     Bullet.speed := Bullet.speed b;
     Bullet.radius := Bullet.radius b;
     Bullet.lifetime := Bullet.lifetime b;
     Bullet.age := Bullet.age b + dt |}.

Definition Bullet_isOffscreen (b : Bullet.t) : bool :=
  let margin := 50 in
  (Bullet.x b <? - margin) || (Bullet.x b >? canvas_width host / dpr host + margin)
  || (Bullet.y b <? - margin) || (Bullet.y b >? canvas_height host / dpr host + margin)
  || (Bullet.age b >=? Bullet.lifetime b).

(** ** Enemy *)

(** [Enemy.update(dt)]; [p] is the global [player] it reads. *)
Definition Enemy_update (dt : Q) (p : Player.t) (e : Enemy.t) : Result Enemy.t :=
  let e := if Enemy.hitFlash e >? 0
           then Enemy.set_hitFlash (Enemy.hitFlash e - dt) e else e in
  let dx := Player.x p - Enemy.x e in
  let dy := Player.y p - Enemy.y e in
  let dist := Math_sqrt host (dx * dx + dy * dy) in
  if dist >? 0 then
    ux ← divide dx dist;
    let e := Enemy.set_pos (Enemy.x e + ux * Enemy.speed e * dt) (Enemy.y e) e in
    uy ← divide dy dist;
    Ok (Enemy.set_pos (Enemy.x e) (Enemy.y e + uy * Enemy.speed e * dt) e)
  else Ok e.

(** ** Particle *)

Definition Particle_update (dt : Q) (p : Particle.t) : Particle.t :=
  {| Particle.x := Particle.x p + Particle.vx p * dt;
     Particle.y := Particle.y p + Particle.vy p * dt;
     Particle.vx := Particle.vx p * 0.95;
     Particle.vy := Particle.vy p * 0.95;
     Particle.lifetime := Particle.lifetime p;
     Particle.age := Particle.age p + dt;
     Particle.size := Particle.size p;
     Particle.color := Particle.color p |}.

Definition Particle_isDead (p : Particle.t) : bool :=
  Particle.age p >=? Particle.lifetime p.

(** ** Collisions *)

(** The overlap test of the first loop: [dx], [dy] from the bullet to the
    enemy, [dist < bullet.radius + enemy.radius]. *)
Definition bulletHitsEnemy (bullet : Bullet.t) (enemy : Enemy.t) : bool :=
  let dx := Bullet.x bullet - Enemy.x enemy in
  let dy := Bullet.y bullet - Enemy.y enemy in
  let dist := Math_sqrt host (dx * dx + dy * dy) in
  dist <? Bullet.radius bullet + Enemy.radius enemy.

(** The overlap test of the second loop. *)
Definition enemyHitsPlayer (enemy : Enemy.t) (p : Player.t) : bool :=
  let dx := Enemy.x enemy - Player.x p in
  let dy := Enemy.y enemy - Player.y p in
  let dist := Math_sqrt host (dx * dx + dy * dy) in
  dist <? Enemy.radius enemy + Player.radius p.

(** What a bullet hit does besides the two [splice] calls: particles at the
    enemy, combo, combo timer, score, hit-stop, shake, sound. *)
Definition hitEffects (enemy : Enemy.t) (s : Game) : Game :=
  let s := spawnParticles (Enemy.x enemy) (Enemy.y enemy) 15 s in
  let s := set_combo (combo s + 1)%Z s in
  let s := set_comboTimer comboResetTime s in
  let scoreGain := (10 * combo s)%Z in
  let s := set_score (score s + scoreGain)%Z s in
  let s := set_hitstop 0.05 s in
  let s := addShake 12 s in
  playSound 200 0.15 sawtooth 0.3 30 s.

(** The body of [if (dist < bullet.radius + enemy.radius)] for the bullet at
    index [i] and the enemy at index [j], up to the [break]. *)
Definition resolveHit (i j : nat) (enemy : Enemy.t) (s : Game) : Game :=
  let s := set_enemies (<[j := Enemy.set_hitFlash 0.1 enemy]> (enemies s)) s in
  let s := spawnParticles (Enemy.x enemy) (Enemy.y enemy) 15 s in
  let s := set_enemies (delete j (enemies s)) s in
  let s := set_bullets (delete i (bullets s)) s in
  let s := set_combo (combo s + 1)%Z s in
  let s := set_comboTimer comboResetTime s in
  let scoreGain := (10 * combo s)%Z in
  let s := set_score (score s + scoreGain)%Z s in
  let s := set_hitstop 0.05 s in
  let s := addShake 12 s in
  playSound 200 0.15 sawtooth 0.3 30 s.

(** The inner loop [for (let j = enemies.length - 1; j >= 0; j--)], entered
    with [n = j + 1]; [bullet] is [bullets[i]], [undefined] when [None]. *)
Fixpoint scanEnemies (i : nat) (bullet : option Bullet.t) (n : nat) (s : Game)
    : Result Game :=
  match n with
  | O => Ok s
  | S j =>
      match bullet, enemies s !! j with
      | Some b, Some enemy =>
          if bulletHitsEnemy b enemy then Ok (resolveHit i j enemy s)
          else scanEnemies i bullet j s
      | _, _ => Err UndefinedAccess
      end
  end.

(** The outer loop [for (let i = bullets.length - 1; i >= 0; i--)], entered
    with [n = i + 1]. *)
Fixpoint scanBullets (n : nat) (s : Game) : Result Game :=
  match n with
  | O => Ok s
  | S i =>
      s ← scanEnemies i (bullets s !! i) (length (enemies s)) s;
      scanBullets i s
  end.

(** "Bullets vs Enemies" *)
Definition bulletsVsEnemies (s : Game) : Result Game :=
  scanBullets (length (bullets s)) s.

(** The body of the second loop for an enemy that touches the player. *)
Definition resolveContact (i : nat) (enemy : Enemy.t) (s : Game) : Game :=
  let '(died, s) := Player_takeDamage 10 s in
  let s := if died : bool then
             let s := spawnParticles (Player.x (player s)) (Player.y (player s)) 30 s in
             set_gameState GameOver s
           else s in
  let s := spawnParticles (Enemy.x enemy) (Enemy.y enemy) 15 s in
  let s := set_enemies (delete i (enemies s)) s in
  let s := set_combo 0%Z s in
  let s := set_comboTimer 0 s in
  let s := set_score (score s + 10)%Z s in
  let s := addShake 8 s in
  let s := set_hitstop 0.03 s in
  playSound 150 0.08 square 0.4 0 s.

(** "Enemies vs Player": [for (let i = enemies.length - 1; i >= 0; i--)]. *)
Fixpoint scanContacts (n : nat) (s : Game) : Result Game :=
  match n with
  | O => Ok s
  | S i =>
      match enemies s !! i with
      | Some enemy =>
          if enemyHitsPlayer enemy (player s)
          then scanContacts i (resolveContact i enemy s)
          else scanContacts i s
      | None => Err UndefinedAccess
      end
  end.

Definition enemiesVsPlayer (s : Game) : Result Game :=
  scanContacts (length (enemies s)) s.

Definition checkCollisions (s : Game) : Result Game :=
  s ← bulletsVsEnemies s;
  enemiesVsPlayer s.

(** ** Restart *)

Definition restart (s : Game) : Game :=
  let s := set_player new_Player s in
  let s := set_bullets [] s in
  let s := set_enemies [] s in
  let s := set_particles [] s in
  let s := set_score 0%Z s in
  let s := set_wave 1%Z s in
  let s := set_enemySpawnTimer 0 s in
  let s := set_enemiesPerWave 5%Z s in
  let s := set_waveBannerTime 0 s in
  let s := set_gameState Playing s in
  let s := set_paused false s in
  let s := set_screenShake {| vx := 0; vy := 0 |} s in
  let s := set_hitstop 0 s in
  let s := set_combo 0%Z s in
  let s := set_comboTimer 0 s in
  set_lastShotTime 0 s.

(** ** Input handlers *)

(** [e.key.toLowerCase()]: the conversion is the browser's. *)
Definition toLowerCase (key : string) : string := String_toLowerCase host key.

Definition onKeyDown (key : string) (s : Game) : Game :=
  let s := set_keys (<[toLowerCase key := true]> (keys s)) s in
  let s := if (key =? "p")%string || (key =? "P")%string || (key =? "Escape")%string
           then
             let s := set_paused (negb (paused s)) s in
             set_gameState (if paused s then Paused else Playing) s
           else s in
  let s := if (key =? "r")%string || (key =? "R")%string then restart s else s in
  let s := if (key =? "m")%string || (key =? "M")%string
           then set_muted (negb (muted s)) s else s in
  if (key =? "~")%string || (key =? "`")%string
  then set_debug (negb (debug s)) s else s.

Definition onKeyUp (key : string) (s : Game) : Game :=
  set_keys (<[toLowerCase key := false]> (keys s)) s.

Definition onMouseMove (clientX clientY rectLeft rectTop : Q) (s : Game) : Game :=
  let x := clientX - rectLeft in
  let y := clientY - rectTop in
  set_mouse {| mouse_x := x; mouse_y := y; down := down (mouse s);
               worldX := x; worldY := y |} s.

Definition setMouseDown (b : bool) (s : Game) : Game :=
  set_mouse {| mouse_x := mouse_x (mouse s); mouse_y := mouse_y (mouse s); down := b;
               worldX := worldX (mouse s); worldY := worldY (mouse s) |} s.

Definition onMouseDown (button : Z) (s : Game) : Game :=
  if (button =? 0)%Z then setMouseDown true s else s.

Definition onMouseUp (button : Z) (s : Game) : Game :=
  if (button =? 0)%Z then setMouseDown false s else s.

(** ** The game loop *)

Definition decayShake (s : Game) : Game :=
  let s := set_screenShake
             {| vx := vx (screenShake s) * shakeDecay; vy := vy (screenShake s) |} s in
  set_screenShake
    {| vx := vx (screenShake s); vy := vy (screenShake s) * shakeDecay |} s.

(** The frame taken while [hitstop > 0], up to its [return]. *)
Definition hitstopFrame (dt : Q) (s : Game) : Game :=
  let s := set_hitstop (hitstop s - dt) s in
  let s := decayShake s in
  let s := set_enemies
             (List.map (fun enemy =>
                          if Enemy.hitFlash enemy >? 0
                          then Enemy.set_hitFlash (Enemy.hitFlash enemy - dt) enemy
                          else enemy) (enemies s)) s in
  let s := set_player (updateRecoil dt (player s)) s in
  set_player
    (Player.set_ghostAfterimages
       (fadeGhosts dt (Player.ghostAfterimages (player s))) (player s)) s.

Definition updateComboTimer (dt : Q) (s : Game) : Game :=
  if comboTimer s >? 0 then
    let s := set_comboTimer (comboTimer s - dt) s in
    if comboTimer s <=? 0 then set_combo 0%Z s else s
  else s.

Definition fireHeld (s : Game) : bool :=
  down (mouse s) || keyHeld (keys s) " ".

(** "Shooting" *)
Definition shooting (now : Q) (s : Game) : Game :=
  if fireHeld s && (now - lastShotTime s >=? shootCooldown) then
    let p := player s in
    let bulletX := Player.x p + Math_cos host (Player.angle p) * (Player.radius p + 5) in
    let bulletY := Player.y p + Math_sin host (Player.angle p) * (Player.radius p + 5) in
    let s := set_bullets (bullets s ++ [Bullet.new bulletX bulletY (Player.angle p)]) s in
    let s := set_lastShotTime now s in
    let s := set_player (Player.set_recoilOffset 3 (player s)) s in
    playSound 800 0.05 square 0.2 50 s
  else s.

Definition updateBullets (dt : Q) (s : Game) : Game :=
  set_bullets
    (List.filter (fun bullet => negb (Bullet_isOffscreen bullet))
       (List.map (Bullet_update dt) (bullets s))) s.

Definition spawning (dt : Q) (s : Game) : Game :=
  let s := set_enemySpawnTimer (enemySpawnTimer s - dt) s in
  if (waveBannerTime s <=? 0) && (enemySpawnTimer s <=? 0)
     && (Z.of_nat (length (enemies s)) <? enemiesPerWave s)%Z
  then
    let s := spawnEnemy s in
    set_enemySpawnTimer (enemySpawnRate s) s
  else s.

Definition updateEnemies (dt : Q) (s : Game) : Result Game :=
  es ← mapM (Enemy_update dt (player s)) (enemies s);
  Ok (set_enemies es s).

Definition updateParticles (dt : Q) (s : Game) : Game :=
  set_particles
    (List.filter (fun p => negb (Particle_isDead p))
       (List.map (Particle_update dt) (particles s))) s.

(** The wave banner countdown and the step to the next wave. *)
Definition waveProgress (dt : Q) (s : Game) : Game :=
  if waveBannerTime s >? 0 then set_waveBannerTime (waveBannerTime s - dt) s
  else if (length (enemies s) =? 0)%nat && (enemySpawnTimer s <=? 0) then
    let s := set_wave (wave s + 1)%Z s in
    let s := set_enemiesPerWave (5 + wave s * 2)%Z s in
    let s := set_enemySpawnRate (Qmax 0.5 (2 - inject_Z (wave s) * 0.1)) s in
    let s := set_waveBannerTime waveBannerDuration s in
    playSound 500 0.3 sine 0.5 0 s
  else s.

(** "Normal updates" *)
Definition normalFrame (currentTime dt : Q) (s : Game) : Result Game :=
  let s := decayShake s in
  let s := updateComboTimer dt s in
  s ← Player_update dt s;
  let now := currentTime / 1000 in
  let s := shooting now s in
  let s := updateBullets dt s in
  let s := spawning dt s in
  s ← updateEnemies dt s;
  let s := updateParticles dt s in
  let s := waveProgress dt s in
  checkCollisions s.

Definition isPlaying (s : Game) : bool :=
  match gameState s with
  | Playing => negb (paused s)
  | _ => false
  end.

(** [gameLoop(currentTime)] without its drawing. *)
Definition gameLoop (currentTime : Q) (s : Game) : Result Game :=
  let dt := Qmin ((currentTime - lastTime s) / 1000) 0.033 in
  let s := set_lastTime currentTime s in
  if isPlaying s then
    if hitstop s >? 0 then Ok (hitstopFrame dt s)
    else normalFrame currentTime dt s
  else Ok s.

(** ** Events and runs *)

Inductive Event : Type :=
| KeyDown (key : string)
| KeyUp (key : string)
| MouseMove (clientX clientY rectLeft rectTop : Q)
| MouseDown (button : Z)
| MouseUp (button : Z)
| Frame (currentTime : Q).

Definition handle (ev : Event) (s : Game) : Result Game :=
  match ev with
  | KeyDown key => Ok (onKeyDown key s)
  | KeyUp key => Ok (onKeyUp key s)
  | MouseMove cx cy l t => Ok (onMouseMove cx cy l t s)
  | MouseDown b => Ok (onMouseDown b s)
  | MouseUp b => Ok (onMouseUp b s)
  | Frame t => gameLoop t s
  end.

Fixpoint run (evs : list Event) (s : Game) : Result Game :=
  match evs with
  | [] => Ok s
  | ev :: evs => s ← handle ev s; run evs s
  end.

(** The state once the script has been evaluated. *)
Definition initial : Game :=
  {| gameState := Playing;
     paused := false;
     muted := false;
     debug := false;
     score := 0;
     wave := 1;
     screenShake := {| vx := 0; vy := 0 |};
     hitstop := 0;
     combo := 0;
     comboTimer := 0;
     keys := ∅;
     mouse := {| mouse_x := 0; mouse_y := 0; down := false; worldX := 0; worldY := 0 |};
     player := new_Player;
     bullets := [];
     enemies := [];
     particles := [];
     lastShotTime := 0;
     enemySpawnTimer := 0;
     enemySpawnRate := 2;
     enemiesPerWave := 5;
     waveBannerTime := 0;
     lastTime := performance_now host;
     sounds := [];
     randomCalls := 0 |}.

(** A state is reachable when some sequence of events leads to it. *)
Definition reachable (s : Game) : Prop :=
  ∃ evs, run evs initial = Ok s.

(** ** Auxiliary notions used in the statements *)

(** [playSound], [addShake] and [spawnParticles] write the particles, the
    shake offset, the sound log and the count of random draws; [cosmetic]
    is a state changed in those four places only. *)
Definition cosmetic (ps : list Particle.t) (sh : Vec2) (snd : list Sound) (n : nat)
    (s : Game) : Game :=
  set_particles ps (set_screenShake sh (set_sounds snd (set_randomCalls n s))).

Definition cosmeticOnly (s s' : Game) : Prop :=
  ∃ ps sh snd n, s' = cosmetic ps sh snd n s.


(** The three fields of the player the dash and the timer interact through. *)
Definition dashView (p : Player.t) : bool * Q * Q :=
  (Player.dashActive p, Player.invulnerable p, Player.dashDuration p).


(** A stretch of updates after each of which the dash is still active. *)
Inductive dashing : Game → list Q → Game → Prop :=
| dashing_nil (s : Game) : dashing s [] s
| dashing_cons (s s1 s2 : Game) (dt : Q) (dts : list Q) :
    Player_update dt s = Ok s1 →
    Player.dashActive (player s1) = true →
    dashing s1 dts s2 →
    dashing s (dt :: dts) s2.


(** The body of the outer loop of "Bullets vs Enemies" for index [i]. *)
Definition bulletStep (i : nat) (s : Game) : Result Game :=
  scanEnemies i (bullets s !! i) (length (enemies s)) s.

(** First-match resolution over lists taken in scan order.  [pick] looks for
    the first enemy of [es] the bullet overlaps and returns it with the
    enemies that stay; [resolveInOrder] takes the bullets one after the
    other, each against the enemies still there, and returns the bullets
    that stay, the enemies that stay and the state after the hit effects. *)
Fixpoint pick (b : Bullet.t) (es : list Enemy.t) : option (Enemy.t * list Enemy.t) :=
  match es with
  | [] => None
  | e :: es' =>
      if bulletHitsEnemy b e then Some (e, es')
      else match pick b es' with
           | Some (hit, rest) => Some (hit, e :: rest)
           | None => None
           end
  end.

Fixpoint resolveInOrder (bs : list Bullet.t) (es : list Enemy.t) (s : Game)
    : list Bullet.t * list Enemy.t * Game :=
  match bs with
  | [] => ([], es, s)
  | b :: bs' =>
      match pick b es with
      | Some (hit, rest) => resolveInOrder bs' rest (hitEffects hit s)
      | None =>
          let '(kept, es', s') := resolveInOrder bs' es s in
          (b :: kept, es', s')
      end
  end.

(** The pass as the specification words it: bullets in insertion order in
    the outer loop, enemies in insertion order in the inner loop, first
    match wins. *)
Definition pass_insertionOrder (s : Game) : Game :=
  let '(kept, es, s') := resolveInOrder (bullets s) (enemies s) s in
  set_bullets kept (set_enemies es s').

(** The same resolution with both collections taken from the last element
    to the first. *)
Definition pass_reverseOrder (s : Game) : Game :=
  let '(kept, es, s') := resolveInOrder (rev (bullets s)) (rev (enemies s)) s in
  set_bullets (rev kept) (set_enemies (rev es) s').

(** The part of a bullet hit that counts: combo, combo timer, score and
    hit-stop, in the order of the source. *)
Definition hitScore (s : Game) : Game :=
  let s := set_combo (combo s + 1)%Z s in
  let s := set_comboTimer comboResetTime s in
  let scoreGain := (10 * combo s)%Z in
  let s := set_score (score s + scoreGain)%Z s in
  set_hitstop 0.05 s.

(** Writing the two collections at once. *)
Definition withLists (bs : list Bullet.t) (es : list Enemy.t) (s : Game) : Game :=
  set_bullets bs (set_enemies es s).

(** What holds in every state the game can be in: hp within its bounds, a
    combo that is not negative, and the wave parameters at their initial
    values. *)
Definition Inv (s : Game) : Prop :=
  0 <= Player.hp (player s)
  ∧ Player.hp (player s) <= Player.maxHp (player s)
  ∧ (0 <= combo s)%Z
  ∧ wave s = 1%Z
  ∧ enemiesPerWave s = 5%Z
  ∧ enemySpawnRate s = 2.

(** After the spawn step one of the three conditions of a wave change fails. *)
Definition waveBlocked (s : Game) : Prop :=
  0 < waveBannerTime s ∨ 0 < enemySpawnTimer s ∨ enemies s ≠ [].

Definition healthView (p : Player.t) : Q * Q := (Player.hp p, Player.maxHp p).

(** The guard of [takeDamage]: the player cannot be hurt. *)
Definition protected (p : Player.t) : bool :=
  (Player.invulnerable p >? 0) || Player.dashActive p.

(** The player after a blow of [amount] that was not refused. *)
Definition damaged (amount : Q) (p : Player.t) : Player.t :=
  Player.set_hp
    (if Player.hp p - amount <=? 0 then 0 else Player.hp p - amount)
    (Player.set_invulnerable (Player.invulnerableTime p) p).

(** The enemies of the list that touch the player, and the other ones. *)
Definition touching (p : Player.t) (es : list Enemy.t) : list Enemy.t :=
  List.filter (fun e => enemyHitsPlayer e p) es.
Definition clear (p : Player.t) (es : list Enemy.t) : list Enemy.t :=
  List.filter (fun e => negb (enemyHitsPlayer e p)) es.

(** More of what holds in every state the game can be in: at most five
    afterimages, a score that is not negative, at most five enemies, no
    combo without time left on its timer, no wave banner. *)
Definition Tidy (s : Game) : Prop :=
  (length (Player.ghostAfterimages (player s)) ≤ 5)%nat
  ∧ (0 <= score s)%Z
  ∧ (length (enemies s) ≤ 5)%nat
  ∧ (comboTimer s <= 0 → combo s = 0%Z)
  ∧ waveBannerTime s = 0.

(** Every bullet of the state passes the test of [isOffscreen]. *)
Definition OnScreen (s : Game) : Prop :=
  List.Forall (fun b => Bullet_isOffscreen b = false) (bullets s).

(** * Properties *)

(** ** Comparisons *)

Lemma Qltb_lt (a b : Q) : (a <? b) = true ↔ a < b.
Proof.
  unfold Qltb. rewrite negb_true_iff, <- not_true_iff_false, Qle_bool_iff.
  split; [apply Qnot_le_lt | apply Qlt_not_le].
Qed.

Lemma Qltb_ge (a b : Q) : (a <? b) = false ↔ b <= a.
Proof.
  unfold Qltb. rewrite negb_false_iff, Qle_bool_iff. tauto.
Qed.

Lemma Qleb_le (a b : Q) : (a <=? b) = true ↔ a <= b.
Proof. apply Qle_bool_iff. Qed.

Lemma Qleb_gt (a b : Q) : (a <=? b) = false ↔ b < a.
Proof.
  unfold Qleb. rewrite <- not_true_iff_false, Qle_bool_iff.
  split; [apply Qnot_le_lt | apply Qlt_not_le].
Qed.

Lemma Qgtb_gt (a b : Q) : (a >? b) = true ↔ b < a.
Proof. apply Qltb_lt. Qed.

Lemma Qgtb_le (a b : Q) : (a >? b) = false ↔ a <= b.
Proof. apply Qltb_ge. Qed.

Lemma Qgeb_ge (a b : Q) : (a >=? b) = true ↔ b <= a.
Proof. apply Qleb_le. Qed.

Lemma Qgeb_lt (a b : Q) : (a >=? b) = false ↔ a < b.
Proof. apply Qleb_gt. Qed.

Lemma Ok_inj {A : Type} (a b : A) : Ok a = Ok b → a = b.
Proof. congruence. Qed.

Lemma divide_Ok (a b : Q) : ¬ b == 0 → divide a b = Ok (a / b).
Proof.
  intros Hb. unfold divide.
  destruct (Qeq_bool b 0) eqn:E; [|reflexivity].
  apply Qeq_bool_iff in E. contradiction.
Qed.

Lemma divide_Err (a b : Q) : b == 0 → divide a b = Err DivisionByZero.
Proof.
  intros Hb. unfold divide. apply Qeq_bool_iff in Hb. now rewrite Hb.
Qed.

(** ** Cosmetic helpers

    [playSound], [addShake] and [spawnParticles] write the particles, the
    shake offset, the sound log and the count of random draws, and nothing
    else. *)

Lemma cosmeticOnly_refl (s : Game) : cosmeticOnly s s.
Proof.
  exists (particles s), (screenShake s), (sounds s), (randomCalls s).
  now destruct s.
Qed.

Lemma cosmeticOnly_trans (s1 s2 s3 : Game) :
  cosmeticOnly s1 s2 → cosmeticOnly s2 s3 → cosmeticOnly s1 s3.
Proof.
  intros (ps & sh & snd & n & ->) (ps' & sh' & snd' & n' & ->).
  now exists ps', sh', snd', n'.
Qed.

Lemma random_cosmetic (s : Game) : cosmeticOnly s (random s).2.
Proof.
  exists (particles s), (screenShake s), (sounds s), (S (randomCalls s)).
  now destruct s.
Qed.

Lemma playSound_cosmetic (f d : Q) (ty : OscillatorType) (v pv : Q) (s : Game) :
  cosmeticOnly s (playSound f d ty v pv s).
Proof.
  unfold playSound. destruct (muted s || negb (audioContext host)).
  - apply cosmeticOnly_refl.
  - destruct (pv >? 0).
    + exists (particles s), (screenShake s),
        (sounds s ++ [Build_Sound (f + (Math_random host (randomCalls s) - 0.5) * pv) d ty v]),
        (S (randomCalls s)).
      now destruct s.
    + exists (particles s), (screenShake s), (sounds s ++ [Build_Sound f d ty v]),
        (randomCalls s).
      now destruct s.
Qed.

Lemma addShake_cosmetic (i : Q) (s : Game) : cosmeticOnly s (addShake i s).
Proof.
  exists (particles s), (screenShake (addShake i s)), (sounds s), (S (S (randomCalls s))).
  now destruct s.
Qed.

Lemma new_Particle_cosmetic (x y : Q) (s : Game) : cosmeticOnly s (new_Particle x y s).2.
Proof.
  exists (particles s), (screenShake s), (sounds s), (5 + randomCalls s)%nat.
  now destruct s.
Qed.

Lemma spawnParticles_cosmetic (x y : Q) (count : nat) (s : Game) :
  cosmeticOnly s (spawnParticles x y count s).
Proof.
  revert s. induction count as [|n IH]; intros s; [apply cosmeticOnly_refl|].
  cbn [spawnParticles].
  destruct (new_Particle x y s) as [p s1] eqn:E.
  eapply cosmeticOnly_trans; [|apply IH].
  pose proof (new_Particle_cosmetic x y s) as (ps & sh & snd & k & H).
  rewrite E in H. cbn in H. subst s1.
  now exists (particles (cosmetic ps sh snd k s) ++ [p]), sh, snd, k.
Qed.

(** What a cosmetic change leaves alone, field by field. *)
Lemma cosmeticOnly_fields (s s' : Game) :
  cosmeticOnly s s' →
  gameState s' = gameState s ∧ paused s' = paused s ∧ muted s' = muted s
  ∧ debug s' = debug s ∧ score s' = score s ∧ wave s' = wave s
  ∧ hitstop s' = hitstop s ∧ combo s' = combo s ∧ comboTimer s' = comboTimer s
  ∧ keys s' = keys s ∧ mouse s' = mouse s ∧ player s' = player s
  ∧ bullets s' = bullets s ∧ enemies s' = enemies s
  ∧ lastShotTime s' = lastShotTime s ∧ enemySpawnTimer s' = enemySpawnTimer s
  ∧ enemySpawnRate s' = enemySpawnRate s ∧ enemiesPerWave s' = enemiesPerWave s
  ∧ waveBannerTime s' = waveBannerTime s ∧ lastTime s' = lastTime s.
Proof.
  intros (ps & sh & snd & n & ->). now destruct s.
Qed.

(** ** Damage while protected *)

Lemma takeDamage_blocked (amount : Q) (s : Game) :
  0 < Player.invulnerable (player s) ∨ Player.dashActive (player s) = true →
  Player_takeDamage amount s = (false, s).
Proof.
  intros H. unfold Player_takeDamage.
  destruct H as [H | H].
  - apply Qgtb_gt in H. now rewrite H.
  - rewrite H, orb_true_r. reflexivity.
Qed.

(** C3.  A call of [Player.takeDamage(amount)] made while [invulnerable > 0]
    or while [dashActive] holds returns [false] and changes nothing at all:
    the player (hp, invulnerability timer) and the rest of the state (shake,
    hit-stop, sounds) are the ones before the call. *)
Theorem takeDamage_protected (amount : Q) (s : Game) :
  0 < Player.invulnerable (player s) ∨ Player.dashActive (player s) = true →
  Player_takeDamage amount s = (false, s).
Proof.
  apply takeDamage_blocked.
Qed.

(** ** The frozen frame *)

(** C4.  A frame taken while playing, not paused, with [hitstop > 0] leaves
    the simulation as it was: bullets and particles, the player's position,
    hp and timers, every enemy but for its [hitFlash], score, combo, combo
    timer, wave, target population and the spawn timers.  It takes [dt] off
    [hitstop], multiplies both components of the shake offset by
    [shakeDecay], takes [dt] off every positive [hitFlash], takes [dt * 20]
    off a positive recoil offset, stopping at zero, and lets the afterimages
    decay: each one ages by [dt] and loses [dt * 2] of alpha where it stands,
    and the ones whose alpha is no longer positive are dropped. *)
Theorem hitstop_frame_freezes (currentTime : Q) (s : Game) :
  isPlaying s = true →
  0 < hitstop s →
  let dt := Qmin ((currentTime - lastTime s) / 1000) 0.033 in
  ∃ s', gameLoop currentTime s = Ok s'
    ∧ hitstop s' = hitstop s - dt
    ∧ screenShake s'
      = {| vx := vx (screenShake s) * shakeDecay; vy := vy (screenShake s) * shakeDecay |}
    ∧ bullets s' = bullets s
    ∧ particles s' = particles s
    ∧ length (enemies s') = length (enemies s)
    ∧ (∀ i e, enemies s !! i = Some e →
         enemies s' !! i
         = Some (Enemy.set_hitFlash
                   (if Enemy.hitFlash e >? 0 then Enemy.hitFlash e - dt
                    else Enemy.hitFlash e) e))
    ∧ Player.ghostAfterimages (player s')
      = List.filter (fun ghost => Ghost.alpha ghost >? 0)
          (List.map
             (fun ghost =>
                {| Ghost.x := Ghost.x ghost; Ghost.y := Ghost.y ghost;
                   Ghost.angle := Ghost.angle ghost;
                   Ghost.alpha := Ghost.alpha ghost - dt * 2;
                   Ghost.age := Ghost.age ghost + dt |})
             (Player.ghostAfterimages (player s)))
    ∧ Player.recoilOffset (player s')
      = (let r := Player.recoilOffset (player s) in
         if r >? 0 then (if r - dt * 20 <? 0 then 0 else r - dt * 20) else r)
    ∧ Player.set_recoilOffset (Player.recoilOffset (player s))
        (Player.set_ghostAfterimages (Player.ghostAfterimages (player s)) (player s'))
      = player s
    ∧ score s' = score s ∧ combo s' = combo s ∧ comboTimer s' = comboTimer s
    ∧ wave s' = wave s ∧ enemiesPerWave s' = enemiesPerWave s
    ∧ enemySpawnRate s' = enemySpawnRate s
    ∧ enemySpawnTimer s' = enemySpawnTimer s
    ∧ waveBannerTime s' = waveBannerTime s
    ∧ lastShotTime s' = lastShotTime s
    ∧ gameState s' = gameState s ∧ paused s' = paused s
    ∧ sounds s' = sounds s ∧ randomCalls s' = randomCalls s.
Proof.
  intros Hplay Hstop dt. unfold gameLoop.
  replace (isPlaying (set_lastTime currentTime s)) with true
    by (destruct s; exact (eq_sym Hplay)).
  replace (hitstop (set_lastTime currentTime s) >? 0) with true
    by (symmetry; apply Qgtb_gt; destruct s; exact Hstop).
  eexists; split; [reflexivity|].
  fold dt. destruct s as [? ? ? ? ? ? ? ? ? ? ? ? p ? es ? ? ? ? ? ? ? ? ?].
  cbn -[fadeGhosts Qltb Qgtb Qmin Qminus Qmult Qdiv].
  repeat split.
  - apply length_map.
  - intros i e He. rewrite list_lookup_fmap, He. destruct e as [? ? ? ? ? h].
    cbn -[Qltb Qgtb Qminus]. destruct (h >? 0); reflexivity.
  - unfold updateRecoil. destruct p; cbn -[Qltb Qgtb Qminus Qmult].
    destruct (_ >? 0); [|reflexivity].
    cbn -[Qltb Qgtb Qminus Qmult]. destruct (_ <? 0); reflexivity.
  - unfold updateRecoil. destruct p; cbn -[Qltb Qgtb Qminus Qmult].
    destruct (_ >? 0); [|reflexivity].
    cbn -[Qltb Qgtb Qminus Qmult]. destruct (_ <? 0); reflexivity.
  - unfold updateRecoil. destruct p; cbn -[Qltb Qgtb Qminus Qmult].
    destruct (_ >? 0); [|reflexivity].
    cbn -[Qltb Qgtb Qminus Qmult]. destruct (_ <? 0); reflexivity.
Qed.

(** ** Normalisation never divides by zero *)

Lemma nonzero_vector_sqr (dx dy : Q) :
  Qneb dx 0 || Qneb dy 0 = true → 0 < dx * dx + dy * dy.
Proof.
  unfold Qneb. rewrite orb_true_iff, !negb_true_iff, <- !not_true_iff_false.
  rewrite !Qeq_bool_iff. intros H.
  assert (Hx : 0 <= dx * dx) by nra.
  assert (Hy : 0 <= dy * dy) by nra.
  destruct H as [H | H].
  - assert (0 < dx * dx) by (destruct (Qlt_le_dec 0 dx); [nra|];
      destruct (Qlt_le_dec dx 0); [nra|]; exfalso; apply H; lra).
    lra.
  - assert (0 < dy * dy) by (destruct (Qlt_le_dec 0 dy); [nra|];
      destruct (Qlt_le_dec dy 0); [nra|]; exfalso; apply H; lra).
    lra.
Qed.

Section Guarded.

(** [Math.sqrt] of a positive number is not zero. *)
Hypothesis sqrt_nonzero : ∀ q, 0 < q → ¬ Math_sqrt host q == 0.

Lemma normalise_Ok (dx dy : Q) :
  Qneb dx 0 || Qneb dy 0 = true →
  let len := Math_sqrt host (dx * dx + dy * dy) in
  divide dx len = Ok (dx / len) ∧ divide dy len = Ok (dy / len).
Proof.
  intros H len. apply nonzero_vector_sqr, sqrt_nonzero in H.
  split; now apply divide_Ok.
Qed.

Lemma dashActivation_total (s : Game) : ∃ s', dashActivation s = Ok s'.
Proof.
  unfold dashActivation. destruct (dashRequested s); [|eauto].
  destruct (heldDirection (keys s)) as [dx dy].
  destruct (Qneb dx 0 || Qneb dy 0) eqn:E; [|cbn; eauto].
  destruct (normalise_Ok dx dy E) as [-> ->]. cbn. eauto.
Qed.

Lemma normalMovement_total (ks : gmap string bool) (dt : Q) (p : Player.t) :
  ∃ p', normalMovement ks dt p = Ok p'.
Proof.
  unfold normalMovement. destruct (negb (Player.dashActive p)); [|eauto].
  destruct (heldDirection ks) as [dx dy].
  destruct (Qneb dx 0 || Qneb dy 0) eqn:E; [|eauto].
  destruct (normalise_Ok dx dy E) as [-> ->]. cbn. eauto.
Qed.

Lemma Player_update_total (dt : Q) (s : Game) : ∃ s', Player_update dt s = Ok s'.
Proof.
  unfold Player_update.
  destruct (dashActivation_total (set_player (updateDashCooldown dt (player s)) s))
    as [s1 ->].
  cbn.
  destruct (normalMovement_total (keys s1) dt (updateRecoil dt (dashMovement dt (player s1))))
    as [p ->].
  cbn. eauto.
Qed.

End Guarded.

Lemma normalMovement_still (ks : gmap string bool) (dt : Q) (p : Player.t) :
  (heldDirection ks).1 == 0 → (heldDirection ks).2 == 0 →
  normalMovement ks dt p = Ok p.
Proof.
  intros Hx Hy. unfold normalMovement.
  destruct (negb (Player.dashActive p)); [|reflexivity].
  destruct (heldDirection ks) as [dx dy]. cbn in Hx, Hy.
  unfold Qneb. apply Qeq_bool_iff in Hx, Hy. now rewrite Hx, Hy.
Qed.

Lemma Enemy_update_total (dt : Q) (p : Player.t) (e : Enemy.t) :
  ∃ e', Enemy_update dt p e = Ok e'.
Proof.
  unfold Enemy_update.
  set (e1 := if Enemy.hitFlash e >? 0 then _ else _).
  set (dist := Math_sqrt host _).
  destruct (dist >? 0) eqn:E; [|eauto].
  apply Qgtb_gt in E.
  assert (Hd : ¬ dist == 0) by (intros Hd; rewrite Hd in E; now apply Qlt_irrefl in E).
  rewrite !(divide_Ok _ _ Hd). cbn. eauto.
Qed.

Lemma Enemy_update_still (dt : Q) (p : Player.t) (e : Enemy.t) :
  (∀ q, q == 0 → Math_sqrt host q <= 0) →
  Player.x p == Enemy.x e → Player.y p == Enemy.y e →
  ∃ e', Enemy_update dt p e = Ok e'
        ∧ Enemy.x e' = Enemy.x e ∧ Enemy.y e' = Enemy.y e.
Proof.
  intros Hsqrt Hx Hy. unfold Enemy_update.
  set (e1 := if Enemy.hitFlash e >? 0 then _ else _).
  assert (He1 : Enemy.x e1 = Enemy.x e ∧ Enemy.y e1 = Enemy.y e)
    by (subst e1; destruct (_ >? 0); now destruct e).
  destruct He1 as [Ex Ey].
  set (dx := Player.x p - Enemy.x e1). set (dy := Player.y p - Enemy.y e1).
  assert (Hz : dx * dx + dy * dy == 0).
  { subst dx dy. rewrite Ex, Ey, Hx, Hy. ring. }
  apply Hsqrt, Qgtb_le in Hz. rewrite Hz. eauto.
Qed.

(** C9.  The normalisations of [Player.update] (dash direction and normal
    movement) and of [Enemy.update] never divide by zero: both functions always
    return.  With no direction held the movement step of the player does
    not normalise and leaves the player where it is, and an enemy on the
    player's position does not move. *)
Theorem normalisation_guarded :
  (∀ q, 0 < q → ¬ Math_sqrt host q == 0) →
  (∀ q, q == 0 → Math_sqrt host q <= 0) →
  (∀ dt s, ∃ s', Player_update dt s = Ok s')
  ∧ (∀ ks dt p, (heldDirection ks).1 == 0 → (heldDirection ks).2 == 0 →
       normalMovement ks dt p = Ok p)
  ∧ (∀ dt p e, ∃ e', Enemy_update dt p e = Ok e')
  ∧ (∀ dt p e, Player.x p == Enemy.x e → Player.y p == Enemy.y e →
       ∃ e', Enemy_update dt p e = Ok e'
             ∧ Enemy.x e' = Enemy.x e ∧ Enemy.y e' = Enemy.y e).
Proof.
  intros Hpos Hzero. repeat split.
  - intros dt s. now apply Player_update_total.
  - apply normalMovement_still.
  - apply Enemy_update_total.
  - intros dt p e. now apply Enemy_update_still.
Qed.

(** ** Invulnerability across a dash *)

Lemma updateDashCooldown_view (dt : Q) (p : Player.t) :
  dashView (updateDashCooldown dt p) = dashView p.
Proof. unfold updateDashCooldown. destruct (_ >? 0); now destruct p. Qed.

Lemma updateRecoil_view (dt : Q) (p : Player.t) :
  dashView (updateRecoil dt p) = dashView p.
Proof.
  unfold updateRecoil. destruct (_ >? 0) eqn:E; [|reflexivity].
  destruct (_ <? 0); now destruct p.
Qed.

Lemma normalMovement_view (ks : gmap string bool) (dt : Q) (p p' : Player.t) :
  normalMovement ks dt p = Ok p' → dashView p' = dashView p.
Proof.
  unfold normalMovement. destruct (negb (Player.dashActive p)); [|congruence].
  destruct (heldDirection ks) as [dx dy].
  destruct (Qneb dx 0 || Qneb dy 0); [|congruence].
  destruct (divide dx _) as [nx|]; [|discriminate].
  destruct (divide dy _) as [ny|]; [|discriminate].
  cbn. intros [= <-]. now destruct p.
Qed.

Lemma keepInBounds_view (p : Player.t) : dashView (keepInBounds p) = dashView p.
Proof. now destruct p. Qed.

Lemma aimAtMouse_view (m : Mouse) (p : Player.t) : dashView (aimAtMouse m p) = dashView p.
Proof. now destruct p. Qed.

(** The dash step never touches the timer; it can only end the dash. *)
Lemma dashMovement_view (dt : Q) (p : Player.t) :
  Player.invulnerable (dashMovement dt p) = Player.invulnerable p
  ∧ Player.dashDuration (dashMovement dt p) = Player.dashDuration p
  ∧ (Player.dashActive (dashMovement dt p) = true → Player.dashActive p = true).
Proof.
  unfold dashMovement. destruct (Player.dashActive p) eqn:E.
  - destruct (5 <? _)%nat; (destruct (_ <=? 0); [now destruct p|]);
      destruct p; repeat split; exact E.
  - destruct p; repeat split; cbn in *; congruence.
Qed.

(** The timer step: skipped while the dash is active. *)
Lemma updateInvulnerability_dashing (dt : Q) (p : Player.t) :
  Player.dashActive p = true → updateInvulnerability dt p = p.
Proof.
  intros H. unfold updateInvulnerability. now rewrite H, andb_false_r.
Qed.

Lemma updateInvulnerability_idle (dt : Q) (p : Player.t) :
  Player.dashActive p = false →
  dashView (updateInvulnerability dt p)
  = (false,
     if Player.invulnerable p >? 0 then Player.invulnerable p - dt
     else Player.invulnerable p,
     Player.dashDuration p).
Proof.
  intros H. unfold updateInvulnerability, dashView. rewrite H, andb_true_r.
  destruct (_ >? 0); destruct p; cbn in *; now subst.
Qed.

(** Dash activation: not requested, nothing happens; requested, the dash and
    the invulnerability window both start at [dashDuration]. *)
Lemma dashActivation_view (s s' : Game) :
  dashActivation s = Ok s' →
  keys s' = keys s ∧ mouse s' = mouse s
  ∧ (if dashRequested s
     then dashView (player s')
          = (true, Player.dashDuration (player s), Player.dashDuration (player s))
     else s' = s).
Proof.
  unfold dashActivation. destruct (dashRequested s); [|now intros [= <-]].
  destruct (heldDirection (keys s)) as [dx dy].
  set (dir := if Qneb dx 0 || Qneb dy 0 then _ else _).
  destruct dir as [d|]; [|discriminate].
  cbn -[spawnParticles addShake playSound]. intros H. apply Ok_inj in H. subst s'.
  match goal with |- context [playSound ?a ?b ?c ?d ?e ?s] =>
    pose proof (cosmeticOnly_fields _ _ (playSound_cosmetic a b c d e s)) as Hs
  end.
  match goal with |- context [addShake ?a ?s] =>
    pose proof (cosmeticOnly_fields _ _ (addShake_cosmetic a s)) as Ha
  end.
  match goal with |- context [spawnParticles ?x ?y ?n ?s] =>
    pose proof (cosmeticOnly_fields _ _ (spawnParticles_cosmetic x y n s)) as Hp
  end.
  destruct Hs as (_&_&_&_&_&_&_&_&_& Hk1 & Hm1 & Hs &_).
  destruct Ha as (_&_&_&_&_&_&_&_&_& Hk2 & Hm2 & Ha &_).
  destruct Hp as (_&_&_&_&_&_&_&_&_& Hk3 & Hm3 & Hp &_).
  rewrite Hk1, Hk2, Hk3, Hm1, Hm2, Hm3, Hs, Ha, Hp.
  destruct s as [? ? ? ? ? ? ? ? ? ? ? ? p ? ? ? ? ? ? ? ? ? ? ?]. destruct p.
  repeat split.
Qed.

Lemma dashRequested_idle (s : Game) :
  dashRequested s = true → Player.dashActive (player s) = false.
Proof.
  unfold dashRequested. rewrite !andb_true_iff, negb_true_iff. tauto.
Qed.

(** One call of [Player.update], seen through [dashView]. *)
Lemma Player_update_view (dt : Q) (s s' : Game) :
  Player_update dt s = Ok s' →
  let p := player s in
  let p' := player s' in
  Player.dashDuration p' = Player.dashDuration p
  ∧ (Player.dashActive p' = true →
       Player.invulnerable p'
       = if Player.dashActive p then Player.invulnerable p else Player.dashDuration p)
  ∧ (Player.dashActive p = true → Player.dashActive p' = false →
       Player.invulnerable p'
       = if Player.invulnerable p >? 0 then Player.invulnerable p - dt
         else Player.invulnerable p).
Proof.
  unfold Player_update.
  set (s0 := set_player (updateDashCooldown dt (player s)) s).
  assert (H0 : dashView (player s0) = dashView (player s))
    by (subst s0; rewrite <- (updateDashCooldown_view dt (player s)); now destruct s).
  clearbody s0.
  destruct (dashActivation s0) as [s1|] eqn:E1; [|discriminate].
  cbn [mbind Result_bind].
  destruct (normalMovement _ _ _) as [p3|] eqn:E3; [|discriminate].
  cbn [mbind Result_bind]. intros [= <-].
  apply normalMovement_view in E3. rewrite updateRecoil_view in E3.
  apply dashActivation_view in E1 as (_ & _ & E1).
  destruct (dashMovement_view dt (player s1)) as (Mi & Md & Ma).
  assert (H4 : dashView (aimAtMouse (mouse s1) (keepInBounds p3))
               = dashView (dashMovement dt (player s1)))
    by (now rewrite aimAtMouse_view, keepInBounds_view).
  cbn zeta.
  replace (player (set_player (updateInvulnerability dt
             (aimAtMouse (mouse s1) (keepInBounds p3))) s1))
    with (updateInvulnerability dt (aimAtMouse (mouse s1) (keepInBounds p3)))
    by now destruct s1.
  remember (aimAtMouse (mouse s1) (keepInBounds p3)) as p4 eqn:Hp4. clear Hp4.
  unfold dashView in *.
  injection H0 as A0 I0 D0. injection H4 as A4 I4 D4.
  destruct (Player.dashActive p4) eqn:Ep4.
  - rewrite (updateInvulnerability_dashing dt p4 Ep4), Ep4.
    rewrite I4, Mi, D4, Md.
    symmetry in A4. specialize (Ma A4).
    destruct (dashRequested s0) eqn:Er.
    + injection E1 as _ E1i E1d. apply dashRequested_idle in Er.
      rewrite A0 in Er. rewrite Er, E1i, E1d, D0.
      repeat split; congruence.
    + subst s1. rewrite I0, D0, <- A0, Ma. repeat split; congruence.
  - pose proof (updateInvulnerability_idle dt p4 Ep4) as Hu.
    unfold dashView in Hu. injection Hu as Au Iu Du.
    rewrite Au, Iu, Du, I4, Mi, D4, Md.
    destruct (dashRequested s0) eqn:Er.
    + injection E1 as _ E1i E1d. apply dashRequested_idle in Er.
      rewrite A0 in Er. rewrite Er, E1d, D0.
      repeat split; congruence.
    + subst s1. rewrite I0, D0. repeat split; congruence.
Qed.

Lemma dashing_view (s s' : Game) (dts : list Q) :
  dashing s dts s' →
  Player.dashActive (player s) = true →
  Player.dashActive (player s') = true
  ∧ Player.invulnerable (player s') = Player.invulnerable (player s)
  ∧ Player.dashDuration (player s') = Player.dashDuration (player s).
Proof.
  induction 1 as [s | s s1 s2 dt dts Hu Ha Hd IH]; intros Hs; [auto|].
  destruct (Player_update_view _ _ _ Hu) as (Hdur & Hact & _).
  specialize (Hact Ha). rewrite Hs in Hact.
  destruct (IH Ha) as (IA & II & ID). repeat split; congruence.
Qed.

(** C10.  From the update that starts a dash to the update that ends it:
    the window is set to [dashDuration] at the start, no update that leaves
    the dash active takes anything off it, and the update in which the dash
    ends is the first to decrement it, by its own [dt].  So the dash ends
    with [dashDuration - dt] of protection left, and damage is still
    refused after that update as long as [0 <= dt < dashDuration]. *)
Theorem dash_keeps_invulnerability
    (s0 s1 s2 s3 : Game) (dt0 dt : Q) (dts : list Q) (amount : Q) :
  Player.dashActive (player s0) = false →
  Player_update dt0 s0 = Ok s1 →
  Player.dashActive (player s1) = true →
  dashing s1 dts s2 →
  Player_update dt s2 = Ok s3 →
  Player.dashActive (player s3) = false →
  let D := Player.dashDuration (player s0) in
  Player.invulnerable (player s1) = D
  ∧ Player.invulnerable (player s2) = D
  ∧ Player.invulnerable (player s3) = (if D >? 0 then D - dt else D)
  ∧ (0 <= dt → dt < D → Player_takeDamage amount s3 = (false, s3)).
Proof.
  intros Hidle Hstart Hon Hrun Hend Hoff D.
  destruct (Player_update_view _ _ _ Hstart) as (Hd1 & Hi1 & _).
  specialize (Hi1 Hon). rewrite Hidle in Hi1.
  destruct (dashing_view _ _ _ Hrun Hon) as (Hon2 & Hi2 & Hd2).
  destruct (Player_update_view _ _ _ Hend) as (_ & _ & Hi3).
  specialize (Hi3 Hon2 Hoff). rewrite Hi2, Hi1 in Hi3.
  fold D in Hi1, Hi3.
  repeat split; [exact Hi1 | congruence | exact Hi3 |].
  intros Hdt0 Hdt. apply takeDamage_blocked. left. rewrite Hi3.
  destruct (D >? 0) eqn:E.
  - lra.
  - apply Qgtb_le in E. lra.
Qed.

(** ** The bullet pass *)

(** Projections and setters of [Game] and [Player.t] reduce by themselves. *)
Ltac fields :=
  cbn [gameState paused muted debug score wave screenShake hitstop combo comboTimer keys
       mouse player bullets enemies particles lastShotTime enemySpawnTimer
       enemySpawnRate enemiesPerWave waveBannerTime lastTime sounds randomCalls
       set_gameState set_paused set_muted set_debug set_score set_wave set_screenShake
       set_hitstop set_combo set_comboTimer set_keys set_mouse set_player set_bullets
       set_enemies set_particles set_lastShotTime set_enemySpawnTimer
       set_enemySpawnRate set_enemiesPerWave set_waveBannerTime set_lastTime
       set_sounds set_randomCalls cosmetic
       Player.x Player.y Player.radius Player.speed Player.angle Player.hp Player.maxHp
       Player.invulnerable Player.invulnerableTime Player.dashActive Player.dashTimer
       Player.dashDuration Player.dashCooldown Player.dashCooldownTime Player.dashSpeed
       Player.dashDirection Player.ghostAfterimages Player.recoilOffset
       Player.set_x Player.set_y Player.set_angle Player.set_hp Player.set_invulnerable
       Player.set_dashActive Player.set_dashTimer Player.set_dashCooldown
       Player.set_dashDirection Player.set_ghostAfterimages Player.set_recoilOffset].

(** Replace every call of a cosmetic helper in the goal by [cosmetic]. *)
Ltac cosmetics :=
  repeat match goal with
  | |- context [playSound ?a ?b ?c ?d ?e ?s] =>
      let E := fresh "E" in
      destruct (playSound_cosmetic a b c d e s) as (? & ? & ? & ? & E);
      rewrite E; clear E
  | |- context [addShake ?a ?s] =>
      let E := fresh "E" in
      destruct (addShake_cosmetic a s) as (? & ? & ? & ? & E);
      rewrite E; clear E
  | |- context [spawnParticles ?x ?y ?n ?s] =>
      let E := fresh "E" in
      destruct (spawnParticles_cosmetic x y n s) as (? & ? & ? & ? & E);
      rewrite E; clear E
  end.

Lemma withLists_withLists bs es bs' es' (s : Game) :
  withLists bs es (withLists bs' es' s) = withLists bs es s.
Proof. reflexivity. Qed.

Lemma withLists_same (s : Game) : withLists (bullets s) (enemies s) s = s.
Proof. now destruct s. Qed.

Lemma new_Particle_withLists x y bs es (s : Game) :
  new_Particle x y (withLists bs es s)
  = ((new_Particle x y s).1, withLists bs es (new_Particle x y s).2).
Proof. reflexivity. Qed.

Lemma spawnParticles_withLists x y n bs es (s : Game) :
  spawnParticles x y n (withLists bs es s) = withLists bs es (spawnParticles x y n s).
Proof.
  revert s. induction n as [|n IH]; intros s; [reflexivity|].
  cbn [spawnParticles]. rewrite new_Particle_withLists.
  destruct (new_Particle x y s) as [p s1]. cbn [fst snd].
  change (set_particles (particles (withLists bs es s1) ++ [p]) (withLists bs es s1))
    with (withLists bs es (set_particles (particles s1 ++ [p]) s1)).
  apply IH.
Qed.

(** X1: [spawnParticles(x, y, count)] appends [count] particles, all at
    [(x, y)], of age 0 and lifetime 0.5, and draws five random numbers for
    each. *)
Theorem spawnParticles_count (x y : Q) (count : nat) (s : Game) :
  ∃ new,
    particles (spawnParticles x y count s) = particles s ++ new
    ∧ length new = count
    ∧ List.Forall (fun p => Particle.x p = x ∧ Particle.y p = y
                            ∧ Particle.age p = 0 ∧ Particle.lifetime p = 0.5) new
    ∧ randomCalls (spawnParticles x y count s) = (randomCalls s + 5 * count)%nat.
Proof.
  revert s. induction count as [|n IH]; intros s.
  - exists []. cbn. rewrite app_nil_r. repeat split; auto.
  - cbn [spawnParticles].
    destruct (new_Particle x y s) as [p s1] eqn:E.
    assert (Hp : Particle.x p = x ∧ Particle.y p = y ∧ Particle.age p = 0
                 ∧ Particle.lifetime p = 0.5
                 ∧ particles s1 = particles s
                 ∧ randomCalls s1 = (randomCalls s + 5)%nat).
    { unfold new_Particle, random in E. destruct s. cbn in E.
      injection E as <- <-. cbn. repeat split; auto; lia. }
    destruct Hp as (Hx & Hy & Ha & Hl & Hps & Hr).
    destruct (IH (set_particles (particles s1 ++ [p]) s1)) as (new & Hn & Hlen & Hall & Hrc).
    exists (p :: new). rewrite Hn, Hrc. fields. rewrite Hps, Hr, <- app_assoc.
    repeat split; cbn; auto; lia.
Qed.

(** From here on [spawnParticles] is used through its lemmas only. *)
Opaque spawnParticles.

Lemma addShake_withLists i bs es (s : Game) :
  addShake i (withLists bs es s) = withLists bs es (addShake i s).
Proof. reflexivity. Qed.

Lemma playSound_withLists f d ty v pv bs es (s : Game) :
  playSound f d ty v pv (withLists bs es s) = withLists bs es (playSound f d ty v pv s).
Proof.
  unfold playSound. change (muted (withLists bs es s)) with (muted s).
  destruct (muted s || negb (audioContext host)); [reflexivity|].
  destruct (pv >? 0); reflexivity.
Qed.

Lemma hitScore_withLists bs es (s : Game) :
  hitScore (withLists bs es s) = withLists bs es (hitScore s).
Proof. reflexivity. Qed.

Lemma hitEffects_unfold e (s : Game) :
  hitEffects e s
  = playSound 200 0.15 sawtooth 0.3 30
      (addShake 12 (hitScore (spawnParticles (Enemy.x e) (Enemy.y e) 15 s))).
Proof. reflexivity. Qed.

Lemma hitEffects_withLists e bs es (s : Game) :
  hitEffects e (withLists bs es s) = withLists bs es (hitEffects e s).
Proof.
  rewrite !hitEffects_unfold, spawnParticles_withLists.
  now rewrite hitScore_withLists, addShake_withLists, playSound_withLists.
Qed.

Lemma resolveHit_unfold i j e (s : Game) :
  resolveHit i j e s
  = let s1 := spawnParticles (Enemy.x e) (Enemy.y e) 15
                (set_enemies (<[j := Enemy.set_hitFlash 0.1 e]> (enemies s)) s) in
    let s2 := set_enemies (delete j (enemies s1)) s1 in
    playSound 200 0.15 sawtooth 0.3 30
      (addShake 12 (hitScore (set_bullets (delete i (bullets s2)) s2))).
Proof. reflexivity. Qed.

Lemma delete_insert_same {A : Type} (l : list A) (j : nat) (x : A) :
  delete j (<[j := x]> l) = delete j l.
Proof.
  revert j. induction l as [|y l IH]; intros [|j]; cbn; try reflexivity.
  f_equal. apply IH.
Qed.

(** The enemy is marked and removed in the same breath: what is left of a
    hit is the two removals and the hit effects. *)
Lemma resolveHit_effects i j e (s : Game) :
  resolveHit i j e s
  = withLists (delete i (bullets s)) (delete j (enemies s)) (hitEffects e s).
Proof.
  rewrite resolveHit_unfold, hitEffects_unfold. cbn zeta.
  change (set_enemies ?l s) with (withLists (bullets s) l s).
  rewrite spawnParticles_withLists.
  destruct (cosmeticOnly_fields _ _
              (spawnParticles_cosmetic (Enemy.x e) (Enemy.y e) 15 s))
    as (_&_&_&_&_&_&_&_&_&_&_&_& Hb &_).
  revert Hb. generalize (spawnParticles (Enemy.x e) (Enemy.y e) 15 s).
  intros s1 Hb.
  rewrite <- playSound_withLists, <- addShake_withLists, <- hitScore_withLists.
  do 3 f_equal.
  unfold withLists. fields. now rewrite delete_insert_same.
Qed.

(** The inner loop over the first [n] enemies is [pick] over these enemies
    taken from the last to the first. *)
Lemma scanEnemies_pick (i : nat) (b : Bullet.t) (n : nat) (s : Game) :
  (n ≤ length (enemies s))%nat →
  scanEnemies i (Some b) n s
  = Ok match pick b (rev (take n (enemies s))) with
       | None => s
       | Some (hit, rest) =>
           withLists (delete i (bullets s)) (rev rest ++ drop n (enemies s))
             (hitEffects hit s)
       end.
Proof.
  induction n as [|j IH]; intros Hn.
  - now rewrite take_0.
  - cbn [scanEnemies].
    destruct (lookup_lt_is_Some_2 (enemies s) j ltac:(lia)) as [e He].
    rewrite He, (take_S_r _ _ _ He), rev_unit. cbn [pick].
    destruct (bulletHitsEnemy b e).
    + rewrite resolveHit_effects, rev_involutive, (delete_take_drop (enemies s)).
      reflexivity.
    + rewrite IH by lia.
      destruct (pick b (rev (take j (enemies s)))) as [[hit rest]|]; [|reflexivity].
      cbn [rev]. rewrite <- app_assoc. cbn [app].
      now rewrite (drop_S _ _ _ He).
Qed.

Lemma bullets_withLists bs es (s : Game) : bullets (withLists bs es s) = bs.
Proof. reflexivity. Qed.

Lemma enemies_withLists bs es (s : Game) : enemies (withLists bs es s) = es.
Proof. reflexivity. Qed.

Lemma take_delete {A : Type} (l : list A) (i : nat) : take i (delete i l) = take i l.
Proof.
  revert i. induction l as [|x l IH]; intros [|i]; cbn; try reflexivity.
  f_equal. apply IH.
Qed.

Lemma drop_delete {A : Type} (l : list A) (i : nat) : drop i (delete i l) = drop (S i) l.
Proof.
  revert i. induction l as [|x l IH]; intros [|i]; cbn; try reflexivity.
  apply IH.
Qed.

Lemma resolveInOrder_withLists bs es bs' es' (s : Game) :
  resolveInOrder bs es (withLists bs' es' s)
  = let '(kept, rest, s') := resolveInOrder bs es s in
    (kept, rest, withLists bs' es' s').
Proof.
  revert es s. induction bs as [|b bs IH]; intros es s; [reflexivity|].
  cbn [resolveInOrder]. destruct (pick b es) as [[hit rest]|].
  - rewrite hitEffects_withLists. apply IH.
  - rewrite IH. now destruct (resolveInOrder bs es s) as [[kept rest] s'].
Qed.

(** The outer loop over the first [n] bullets. *)
Lemma scanBullets_resolve (n : nat) (s : Game) :
  (n ≤ length (bullets s))%nat →
  scanBullets n s
  = Ok (let '(kept, rest, s') :=
          resolveInOrder (rev (take n (bullets s))) (rev (enemies s)) s in
        withLists (rev kept ++ drop n (bullets s)) (rev rest) s').
Proof.
  revert s. induction n as [|i IH]; intros s Hn.
  - rewrite take_0, drop_0. cbn [rev resolveInOrder app scanBullets].
    now rewrite rev_involutive, withLists_same.
  - cbn [scanBullets].
    destruct (lookup_lt_is_Some_2 (bullets s) i ltac:(lia)) as [b Hb].
    rewrite Hb, scanEnemies_pick by lia.
    rewrite firstn_all, drop_all.
    rewrite (take_S_r _ _ _ Hb), rev_unit. cbn [resolveInOrder].
    destruct (pick b (rev (enemies s))) as [[hit rest]|]; cbn [mbind Result_bind].
    + rewrite app_nil_r.
      rewrite IH by (rewrite bullets_withLists, length_delete; [lia | eauto]).
      rewrite bullets_withLists, enemies_withLists, rev_involutive.
      rewrite resolveInOrder_withLists, take_delete, drop_delete.
      destruct (resolveInOrder _ rest (hitEffects hit s)) as [[kept rest'] s'].
      now rewrite withLists_withLists.
    + rewrite IH by lia.
      destruct (resolveInOrder _ _ s) as [[kept rest'] s'].
      cbn [rev]. rewrite <- app_assoc. cbn [app]. now rewrite (drop_S _ _ _ Hb).
Qed.

(** The pass of the source is first-match resolution over both collections
    taken from the last element to the first. *)
Lemma bulletsVsEnemies_reverseOrder (s : Game) :
  bulletsVsEnemies s = Ok (pass_reverseOrder s).
Proof.
  unfold bulletsVsEnemies, pass_reverseOrder.
  rewrite scanBullets_resolve by lia.
  rewrite firstn_all, drop_all.
  destruct (resolveInOrder _ _ s) as [[kept rest] s']. now rewrite app_nil_r.
Qed.

(** What a hit changes and what it leaves alone. *)
Lemma hitEffects_fields (e : Enemy.t) (s : Game) :
  let s' := hitEffects e s in
  combo s' = (combo s + 1)%Z
  ∧ comboTimer s' = comboResetTime
  ∧ score s' = (score s + 10 * (combo s + 1))%Z
  ∧ hitstop s' = 0.05
  ∧ player s' = player s ∧ gameState s' = gameState s ∧ paused s' = paused s
  ∧ muted s' = muted s ∧ keys s' = keys s ∧ mouse s' = mouse s
  ∧ wave s' = wave s ∧ enemiesPerWave s' = enemiesPerWave s
  ∧ enemySpawnRate s' = enemySpawnRate s ∧ enemySpawnTimer s' = enemySpawnTimer s
  ∧ waveBannerTime s' = waveBannerTime s ∧ lastShotTime s' = lastShotTime s
  ∧ lastTime s' = lastTime s.
Proof.
  cbn zeta. rewrite hitEffects_unfold. cosmetics. unfold hitScore. fields.
  repeat split.
Qed.

Lemma pick_app_miss (b : Bullet.t) (l1 l2 : list Enemy.t) :
  Forall (fun e => bulletHitsEnemy b e = false) l1 →
  pick b (l1 ++ l2)
  = match pick b l2 with
    | Some (hit, rest) => Some (hit, l1 ++ rest)
    | None => None
    end.
Proof.
  induction 1 as [|e l1 He Hl1 IH]; cbn [app pick].
  - now destruct (pick b l2) as [[hit rest]|].
  - rewrite He, IH. now destruct (pick b l2) as [[hit rest]|].
Qed.

(** The enemy the scan stops at: the overlapping one with the highest index. *)
Lemma pick_highest (b : Bullet.t) (es : list Enemy.t) (j : nat) (e : Enemy.t) :
  es !! j = Some e →
  bulletHitsEnemy b e = true →
  (∀ j' e', (j < j')%nat → es !! j' = Some e' → bulletHitsEnemy b e' = false) →
  pick b (rev es) = Some (e, rev (delete j es)).
Proof.
  intros He Hhit Hmiss.
  rewrite <- (take_drop_middle es j e He) at 1.
  rewrite rev_app_distr. cbn [rev]. rewrite <- app_assoc. cbn [app].
  rewrite pick_app_miss.
  - cbn [pick]. rewrite Hhit, delete_take_drop, rev_app_distr. reflexivity.
  - apply Forall_forall. intros e' Hin.
    apply list_elem_of_In, in_rev, list_elem_of_In, list_elem_of_lookup in Hin.
    destruct Hin as [k Hk]. rewrite lookup_drop in Hk.
    apply (Hmiss (S j + k)%nat e'); [lia | exact Hk].
Qed.

(** C1, amended.  When the pass reaches the bullet at index [i], and the
    enemy at index [j] is the overlapping enemy with the highest index (the
    first one the scan meets), exactly that bullet and that enemy are removed,
    the combo grows by one, the combo timer is set to [comboResetTime] and the
    score grows by ten times the new combo.  Enemies of lower index that
    overlap the same bullet stay. *)
Theorem first_match_removed (s : Game) (i j : nat) (b : Bullet.t) (e : Enemy.t) :
  bullets s !! i = Some b →
  enemies s !! j = Some e →
  bulletHitsEnemy b e = true →
  (∀ j' e', (j < j')%nat → enemies s !! j' = Some e' → bulletHitsEnemy b e' = false) →
  ∃ s', bulletStep i s = Ok s'
    ∧ bullets s' = delete i (bullets s)
    ∧ enemies s' = delete j (enemies s)
    ∧ combo s' = (combo s + 1)%Z
    ∧ comboTimer s' = comboResetTime
    ∧ score s' = (score s + 10 * combo s')%Z.
Proof.
  intros Hb He Hhit Hmiss. unfold bulletStep.
  rewrite Hb, scanEnemies_pick, firstn_all, drop_all by lia.
  rewrite (pick_highest b (enemies s) j e He Hhit Hmiss).
  eexists. split; [reflexivity|].
  rewrite app_nil_r, rev_involutive, bullets_withLists, enemies_withLists.
  destruct (hitEffects_fields e s) as (Hc & Ht & Hs & _).
  revert Hc Ht Hs. generalize (hitEffects e s). intros s1 Hc Ht Hs.
  unfold withLists. fields. rewrite Hc, Ht, Hs. auto.
Qed.

(** C7, amended.  The bullet pass resolves first-match in iteration order,
    and the iteration runs from the last element of [bullets] and of
    [enemies] to the first: the state after the pass, combo and score
    included, is the one of first-match resolution in reverse insertion
    order. *)
Theorem pass_is_reverse_first_match (s : Game) :
  ∃ s', bulletsVsEnemies s = Ok s'
    ∧ s' = pass_reverseOrder s
    ∧ combo s' = combo (pass_reverseOrder s)
    ∧ score s' = score (pass_reverseOrder s).
Proof.
  exists (pass_reverseOrder s). rewrite bulletsVsEnemies_reverseOrder. auto.
Qed.

(** ** What the steps of a frame keep *)

Lemma updateDashCooldown_health (dt : Q) (p : Player.t) :
  healthView (updateDashCooldown dt p) = healthView p.
Proof. unfold updateDashCooldown. destruct (_ >? 0); now destruct p. Qed.

Lemma dashMovement_health (dt : Q) (p : Player.t) :
  healthView (dashMovement dt p) = healthView p.
Proof.
  unfold dashMovement. destruct (Player.dashActive p).
  - destruct (5 <? _)%nat; destruct (_ <=? 0); now destruct p.
  - now destruct p.
Qed.

Lemma updateRecoil_health (dt : Q) (p : Player.t) :
  healthView (updateRecoil dt p) = healthView p.
Proof.
  unfold updateRecoil. destruct (_ >? 0); [|reflexivity].
  destruct (_ <? 0); now destruct p.
Qed.

Lemma normalMovement_health (ks : gmap string bool) (dt : Q) (p p' : Player.t) :
  normalMovement ks dt p = Ok p' → healthView p' = healthView p.
Proof.
  unfold normalMovement. destruct (negb (Player.dashActive p)); [|congruence].
  destruct (heldDirection ks) as [dx dy].
  destruct (Qneb dx 0 || Qneb dy 0); [|congruence].
  destruct (divide dx _) as [nx|]; [|discriminate].
  destruct (divide dy _) as [ny|]; [|discriminate].
  cbn. intros H. apply Ok_inj in H. subst p'. now destruct p.
Qed.

Lemma keepInBounds_health (p : Player.t) : healthView (keepInBounds p) = healthView p.
Proof. now destruct p. Qed.

Lemma aimAtMouse_health (m : Mouse) (p : Player.t) :
  healthView (aimAtMouse m p) = healthView p.
Proof. now destruct p. Qed.

Lemma updateInvulnerability_health (dt : Q) (p : Player.t) :
  healthView (updateInvulnerability dt p) = healthView p.
Proof. unfold updateInvulnerability. destruct (_ && _); now destruct p. Qed.

Lemma set_player_same (s : Game) : set_player (player s) s = s.
Proof. now destruct s. Qed.

Lemma cosmeticOnly_set_player (p : Player.t) (s s' : Game) :
  cosmeticOnly (set_player p s) s' → ∃ s1, cosmeticOnly s s1 ∧ s' = set_player p s1.
Proof.
  intros (ps & sh & snd & n & ->). exists (cosmetic ps sh snd n s).
  split; [now exists ps, sh, snd, n | reflexivity].
Qed.

(** The dash activation writes the player and cosmetic state only, and
    leaves hp and maxHp alone. *)
Lemma dashActivation_frame (s s' : Game) :
  dashActivation s = Ok s' →
  ∃ p' s1, cosmeticOnly s s1 ∧ s' = set_player p' s1
           ∧ healthView p' = healthView (player s).
Proof.
  unfold dashActivation. destruct (dashRequested s).
  - destruct (heldDirection (keys s)) as [dx dy].
    set (dir := if Qneb dx 0 || Qneb dy 0 then _ else _).
    destruct dir as [d|]; [|discriminate].
    cbn -[spawnParticles addShake playSound]. intros H. apply Ok_inj in H. subst s'.
    match goal with |- context [set_player ?p s] => set (p1 := p) end.
    assert (Hc : cosmeticOnly (set_player p1 s)
                   (playSound 400 0.2 sawtooth 0.25 100
                      (addShake 3
                         (spawnParticles (Player.x (player s)) (Player.y (player s)) 8
                            (set_player p1 s))))).
    { eapply cosmeticOnly_trans; [|apply playSound_cosmetic].
      eapply cosmeticOnly_trans; [|apply addShake_cosmetic].
      apply spawnParticles_cosmetic. }
    apply cosmeticOnly_set_player in Hc as (s1 & Hs1 & ->).
    exists p1, s1. split; [assumption|]. split; [reflexivity|].
    subst p1. now destruct (player s).
  - intros H. apply Ok_inj in H. subst s'.
    exists (player s), s. rewrite set_player_same.
    split; [apply cosmeticOnly_refl|]. split; reflexivity.
Qed.

(** [Player.update] writes the player and cosmetic state only, and leaves
    hp and maxHp alone. *)
Lemma Player_update_frame (dt : Q) (s s' : Game) :
  Player_update dt s = Ok s' →
  ∃ p' s1, cosmeticOnly s s1 ∧ s' = set_player p' s1
           ∧ healthView p' = healthView (player s).
Proof.
  unfold Player_update.
  set (s0 := set_player (updateDashCooldown dt (player s)) s).
  destruct (dashActivation s0) as [s1|] eqn:E1; [|discriminate].
  cbn [mbind Result_bind].
  destruct (normalMovement _ _ _) as [p3|] eqn:E3; [|discriminate].
  cbn [mbind Result_bind]. intros H. apply Ok_inj in H. subst s'.
  apply dashActivation_frame in E1 as (p1 & s2 & Hc & -> & Hh).
  apply normalMovement_health in E3.
  rewrite updateRecoil_health, dashMovement_health in E3.
  assert (Hp : player (set_player p1 s2) = p1) by reflexivity.
  rewrite Hp in E3.
  assert (Hc' : cosmeticOnly (set_player (updateDashCooldown dt (player s)) s) s2)
    by exact Hc.
  apply cosmeticOnly_set_player in Hc' as (s3 & Hs3 & ->).
  eexists _, s3. split; [exact Hs3|]. split; [reflexivity|].
  rewrite updateInvulnerability_health, aimAtMouse_health, keepInBounds_health, E3, Hh.
  subst s0. change (player (set_player ?p s)) with p.
  apply updateDashCooldown_health.
Qed.

Lemma Inv_cosmetic (s s' : Game) : cosmeticOnly s s' → Inv s → Inv s'.
Proof. intros (ps & sh & snd & n & ->). now destruct s. Qed.

Lemma waveBlocked_cosmetic (s s' : Game) :
  cosmeticOnly s s' → waveBlocked s → waveBlocked s'.
Proof. intros (ps & sh & snd & n & ->). now destruct s. Qed.

Lemma Inv_decayShake (s : Game) : Inv s → Inv (decayShake s).
Proof. now destruct s. Qed.

Lemma Inv_updateComboTimer (dt : Q) (s : Game) : Inv s → Inv (updateComboTimer dt s).
Proof.
  unfold updateComboTimer. destruct (comboTimer s >? 0); [|auto].
  fields. destruct (_ <=? 0); unfold Inv; fields; intuition lia.
Qed.

Lemma Inv_Player_update (dt : Q) (s s' : Game) :
  Player_update dt s = Ok s' → Inv s → Inv s'.
Proof.
  intros H. apply Player_update_frame in H as (p' & s1 & Hc & -> & Hh).
  intros Hs. apply (Inv_cosmetic _ _ Hc) in Hs.
  destruct Hc as (ps & sh & snd & n & ->).
  unfold healthView in Hh. injection Hh as Hhp Hmax.
  unfold Inv in *. revert Hs. fields. now rewrite Hhp, Hmax.
Qed.

Lemma Inv_shooting (now : Q) (s : Game) : Inv s → Inv (shooting now s).
Proof.
  unfold shooting. destruct (_ && _); [|auto].
  intros Hs. cosmetics. revert Hs. unfold Inv. fields. now destruct (player s).
Qed.

Lemma Inv_updateBullets (dt : Q) (s : Game) : Inv s → Inv (updateBullets dt s).
Proof. now destruct s. Qed.

(** [spawnEnemy] appends one enemy and draws four random numbers. *)
Lemma spawnEnemy_frame (s : Game) :
  spawnEnemy s
  = set_enemies (enemies s ++ [(new_Enemy s).1]) (set_randomCalls (4 + randomCalls s) s).
Proof.
  unfold spawnEnemy, new_Enemy, random. destruct s.
  cbn -[Qplus Qmult Qdiv Qopp Qfloor Z.eqb].
  repeat destruct (_ =? _)%Z; reflexivity.
Qed.

Lemma Inv_spawning (dt : Q) (s : Game) : Inv s → Inv (spawning dt s).
Proof.
  unfold spawning. fields. destruct (_ && _); [|now destruct s].
  rewrite spawnEnemy_frame. now destruct s.
Qed.

(** With a positive target population the spawn step leaves no state in
    which the wave could change. *)
Lemma spawning_waveBlocked (dt : Q) (s : Game) :
  (0 < enemiesPerWave s)%Z → waveBlocked (spawning dt s).
Proof.
  intros Hpos. unfold spawning. fields.
  destruct (waveBannerTime s <=? 0) eqn:Eb.
  - destruct (enemySpawnTimer s - dt <=? 0) eqn:Et.
    + destruct (Z.of_nat (length (enemies s)) <? enemiesPerWave s)%Z eqn:En.
      * cbn [andb]. rewrite spawnEnemy_frame. right; right. fields.
        now destruct (enemies s).
      * cbn [andb]. right; right. fields. apply Z.ltb_ge in En.
        intros Hnil. rewrite Hnil in En. cbn in En. lia.
    + cbn [andb]. right; left. fields. now apply Qleb_gt in Et.
  - cbn [andb]. left. fields. now apply Qleb_gt in Eb.
Qed.

Lemma mapM_Ok_length {A B : Type} (f : A → Result B) (l : list A) (k : list B) :
  mapM f l = Ok k → length k = length l.
Proof.
  revert k. induction l as [|x l IH]; intros k.
  - cbn. intros H. apply Ok_inj in H. now subst k.
  - cbn. destruct (f x) as [y|]; [|discriminate]. cbn.
    destruct (mapM f l) as [k'|]; [|discriminate]. cbn.
    intros H. apply Ok_inj in H. subst k. cbn. f_equal. now apply IH.
Qed.

Lemma mapM_Ok_total {A B : Type} (f : A → Result B) (l : list A) :
  (∀ x, ∃ y, f x = Ok y) → ∃ k, mapM f l = Ok k.
Proof.
  intros Hf. induction l as [|x l [k IH]]; [now exists []|].
  destruct (Hf x) as [y Hy]. exists (y :: k). cbn. rewrite Hy. cbn.
  rewrite IH. reflexivity.
Qed.

Lemma updateEnemies_frame (dt : Q) (s s' : Game) :
  updateEnemies dt s = Ok s' →
  ∃ es, s' = set_enemies es s ∧ length es = length (enemies s).
Proof.
  unfold updateEnemies. destruct (mapM _ _) as [es|] eqn:E; [|discriminate].
  cbn. intros H. apply Ok_inj in H. subst s'.
  exists es. split; [reflexivity|]. now apply mapM_Ok_length in E.
Qed.

Lemma updateEnemies_total (dt : Q) (s : Game) : ∃ s', updateEnemies dt s = Ok s'.
Proof.
  unfold updateEnemies.
  destruct (mapM_Ok_total (Enemy_update dt (player s)) (enemies s)) as [es ->].
  - intros e. apply Enemy_update_total.
  - cbn. eauto.
Qed.

Lemma Inv_updateParticles (dt : Q) (s : Game) : Inv s → Inv (updateParticles dt s).
Proof. now destruct s. Qed.

(** A wave change needs all three of its conditions. *)
Lemma waveProgress_blocked (dt : Q) (s : Game) :
  waveBlocked s →
  waveProgress dt s
  = if waveBannerTime s >? 0 then set_waveBannerTime (waveBannerTime s - dt) s else s.
Proof.
  intros Hb. unfold waveProgress. destruct (waveBannerTime s >? 0) eqn:Eb; [reflexivity|].
  apply Qgtb_le in Eb.
  destruct Hb as [Hb | [Hb | Hb]].
  - lra.
  - apply Qleb_gt in Hb. now rewrite Hb, andb_false_r.
  - destruct (enemies s); [contradiction|reflexivity].
Qed.

Lemma Inv_withLists bs es (s : Game) : Inv s → Inv (withLists bs es s).
Proof. now destruct s. Qed.

Lemma Inv_hitEffects (e : Enemy.t) (s : Game) : Inv s → Inv (hitEffects e s).
Proof.
  destruct (hitEffects_fields e s) as (Hc & _ & _ & _ & Hp & _ & _ & _ & _ & _
                                        & Hw & He & Hr & _).
  unfold Inv. rewrite Hc, Hp, Hw, He, Hr. intuition lia.
Qed.

Lemma Inv_resolveInOrder (bs : list Bullet.t) (es : list Enemy.t) (s : Game) :
  Inv s → Inv (resolveInOrder bs es s).2.
Proof.
  revert es s. induction bs as [|b bs IH]; intros es s Hs; [exact Hs|].
  cbn [resolveInOrder]. destruct (pick b es) as [[hit rest]|].
  - apply IH. now apply Inv_hitEffects.
  - specialize (IH es s Hs). now destruct (resolveInOrder bs es s) as [[kept rest] s'].
Qed.

Lemma Inv_bulletsVsEnemies (s s' : Game) :
  bulletsVsEnemies s = Ok s' → Inv s → Inv s'.
Proof.
  rewrite bulletsVsEnemies_reverseOrder. intros H Hs. apply Ok_inj in H. subst s'.
  unfold pass_reverseOrder.
  pose proof (Inv_resolveInOrder (rev (bullets s)) (rev (enemies s)) s Hs) as Hr.
  destruct (resolveInOrder _ _ s) as [[kept rest] s']. now apply Inv_withLists.
Qed.

(** [takeDamage] on a player that is not protected. *)
Lemma takeDamage_fields (amount : Q) (s : Game) :
  let r := Player_takeDamage amount s in
  let hp := Player.hp (player s) in
  Player.maxHp (player r.2) = Player.maxHp (player s)
  ∧ (Player.hp (player r.2) = hp
     ∨ Player.hp (player r.2) = (if hp - amount <=? 0 then 0 else hp - amount))
  ∧ (r.1 = true → Player.hp (player r.2) = 0)
  ∧ combo r.2 = combo s ∧ wave r.2 = wave s
  ∧ enemiesPerWave r.2 = enemiesPerWave s ∧ enemySpawnRate r.2 = enemySpawnRate s
  ∧ enemies r.2 = enemies s ∧ bullets r.2 = bullets s ∧ score r.2 = score s
  ∧ gameState r.2 = gameState s ∧ paused r.2 = paused s
  ∧ waveBannerTime r.2 = waveBannerTime s
  ∧ Player.ghostAfterimages (player r.2) = Player.ghostAfterimages (player s).
Proof.
  cbn zeta. unfold Player_takeDamage.
  destruct (_ || _); [cbn [fst snd]; intuition discriminate|].
  cosmetics. fields.
  destruct (Player.hp (player s) - amount <=? 0); cosmetics; cbn [fst snd]; fields;
    intuition discriminate.
Qed.

Lemma resolveContact_fields (i : nat) (e : Enemy.t) (s : Game) :
  let s' := resolveContact i e s in
  let hp := Player.hp (player s) in
  Player.maxHp (player s') = Player.maxHp (player s)
  ∧ (Player.hp (player s') = hp
     ∨ Player.hp (player s') = (if hp - 10 <=? 0 then 0 else hp - 10))
  ∧ combo s' = 0%Z ∧ wave s' = wave s
  ∧ enemiesPerWave s' = enemiesPerWave s ∧ enemySpawnRate s' = enemySpawnRate s
  ∧ enemies s' = delete i (enemies s) ∧ bullets s' = bullets s
  ∧ score s' = (score s + 10)%Z
  ∧ paused s' = paused s
  ∧ (gameState s' = gameState s ∨ gameState s' = GameOver ∧ Player.hp (player s') = 0)
  ∧ waveBannerTime s' = waveBannerTime s
  ∧ Player.ghostAfterimages (player s') = Player.ghostAfterimages (player s)
  ∧ comboTimer s' = 0.
Proof.
  cbn zeta. unfold resolveContact.
  pose proof (takeDamage_fields 10 s) as H. cbn zeta in H.
  destruct (Player_takeDamage 10 s) as [died s1]. cbn [fst snd] in H.
  destruct H as (Hm & Hh & Hd & Hc & Hw & He & Hr & Hes & Hbs & Hsc & Hg & Hp & Hb & Hgh).
  destruct died; cosmetics; fields;
    rewrite ?Hm, ?Hc, ?Hw, ?He, ?Hr, ?Hes, ?Hbs, ?Hsc, ?Hg, ?Hp, ?Hb, ?Hgh;
    repeat split; auto.
Qed.

Lemma Inv_resolveContact (i : nat) (e : Enemy.t) (s : Game) :
  Inv s → Inv (resolveContact i e s).
Proof.
  destruct (resolveContact_fields i e s) as (Hm & Hh & Hc & Hw & He & Hr & _).
  unfold Inv. rewrite Hm, Hc, Hw, He, Hr. intros (H0 & H1 & _ & H3 & H4 & H5).
  repeat split; try assumption; try lia.
  - destruct Hh as [-> | ->]; [assumption|].
    destruct (_ <=? 0) eqn:E; [lra|]. apply Qleb_gt in E. lra.
  - destruct Hh as [-> | ->]; [assumption|].
    destruct (_ <=? 0) eqn:E; lra.
Qed.

(** The second loop never reads past the end of [enemies]. *)
Lemma scanContacts_total (n : nat) (s : Game) :
  (n ≤ length (enemies s))%nat → ∃ s', scanContacts n s = Ok s'.
Proof.
  revert s. induction n as [|i IH]; intros s Hn; [cbn; eauto|].
  cbn [scanContacts].
  destruct (lookup_lt_is_Some_2 (enemies s) i ltac:(lia)) as [e He]. rewrite He.
  destruct (enemyHitsPlayer e (player s)); [|apply IH; lia].
  apply IH.
  destruct (resolveContact_fields i e s) as (_&_&_&_&_&_& Hes &_).
  rewrite Hes, length_delete by eauto. lia.
Qed.

Lemma Inv_scanContacts (n : nat) (s s' : Game) :
  scanContacts n s = Ok s' → Inv s → Inv s'.
Proof.
  revert s. induction n as [|i IH]; intros s.
  - cbn. intros H. apply Ok_inj in H. now subst s'.
  - cbn [scanContacts]. destruct (enemies s !! i) as [e|]; [|discriminate].
    destruct (enemyHitsPlayer e (player s)).
    + intros H Hs. apply (IH _ H). now apply Inv_resolveContact.
    + apply IH.
Qed.

Lemma checkCollisions_total (s : Game) : ∃ s', checkCollisions s = Ok s'.
Proof.
  unfold checkCollisions. rewrite bulletsVsEnemies_reverseOrder. cbn [mbind Result_bind].
  apply scanContacts_total. lia.
Qed.

Lemma Inv_checkCollisions (s s' : Game) : checkCollisions s = Ok s' → Inv s → Inv s'.
Proof.
  unfold checkCollisions.
  destruct (bulletsVsEnemies s) as [s1|] eqn:E; [|discriminate].
  cbn [mbind Result_bind]. intros H Hs.
  apply (Inv_scanContacts _ _ _ H). now apply (Inv_bulletsVsEnemies _ _ E).
Qed.

(** ** Frames, events, runs *)

Lemma normalFrame_steps (currentTime dt : Q) (s s' : Game) :
  normalFrame currentTime dt s = Ok s' →
  ∃ s1 s2,
    Player_update dt (updateComboTimer dt (decayShake s)) = Ok s1
    ∧ updateEnemies dt
        (spawning dt (updateBullets dt (shooting (currentTime / 1000) s1))) = Ok s2
    ∧ checkCollisions (waveProgress dt (updateParticles dt s2)) = Ok s'.
Proof.
  unfold normalFrame.
  destruct (Player_update dt _) as [s1|]; [|discriminate]. cbn [mbind Result_bind].
  destruct (updateEnemies dt _) as [s2|] eqn:E2; [|discriminate].
  cbn [mbind Result_bind].
  intros H. now exists s1, s2.
Qed.

Lemma waveBlocked_set_enemies (es : list Enemy.t) (s : Game) :
  length es = length (enemies s) → waveBlocked s → waveBlocked (set_enemies es s).
Proof.
  intros Hl. unfold waveBlocked. fields. intros [H | [H | H]]; auto.
  right; right. intros ->. destruct (enemies s); [contradiction|discriminate].
Qed.

Lemma waveBlocked_updateParticles (dt : Q) (s : Game) :
  waveBlocked s → waveBlocked (updateParticles dt s).
Proof. now destruct s. Qed.

Lemma Inv_set_enemies (es : list Enemy.t) (s : Game) : Inv s → Inv (set_enemies es s).
Proof. now destruct s. Qed.

Lemma Inv_waveProgress (dt : Q) (s : Game) :
  waveBlocked s → Inv s → Inv (waveProgress dt s).
Proof.
  intros Hb. rewrite (waveProgress_blocked dt s Hb).
  destruct (_ >? 0); [now destruct s | auto].
Qed.

Lemma Inv_normalFrame (currentTime dt : Q) (s s' : Game) :
  normalFrame currentTime dt s = Ok s' → Inv s → Inv s'.
Proof.
  intros H Hs. apply normalFrame_steps in H as (s1 & s2 & H1 & H2 & H3).
  apply Inv_decayShake, (Inv_updateComboTimer dt), (Inv_Player_update _ _ _ H1) in Hs.
  apply (Inv_shooting (currentTime / 1000)), (Inv_updateBullets dt) in Hs.
  assert (Hb : waveBlocked (spawning dt (updateBullets dt (shooting (currentTime / 1000) s1)))).
  { apply spawning_waveBlocked. destruct Hs as (_ & _ & _ & _ & -> & _). lia. }
  apply (Inv_spawning dt) in Hs.
  apply updateEnemies_frame in H2 as (es & -> & Hl).
  apply (waveBlocked_set_enemies es _ Hl), (waveBlocked_updateParticles dt) in Hb.
  apply (Inv_set_enemies es), (Inv_updateParticles dt), (Inv_waveProgress dt _ Hb) in Hs.
  exact (Inv_checkCollisions _ _ H3 Hs).
Qed.

Lemma Inv_hitstopFrame (dt : Q) (s : Game) : Inv s → Inv (hitstopFrame dt s).
Proof.
  pose proof (updateRecoil_health dt (player s)) as Hh.
  unfold healthView in Hh. injection Hh as Hhp Hmax.
  unfold hitstopFrame, decayShake, Inv. fields. now rewrite Hhp, Hmax.
Qed.

Lemma Inv_set_lastTime (t : Q) (s : Game) : Inv s → Inv (set_lastTime t s).
Proof. now destruct s. Qed.

Lemma Inv_gameLoop (currentTime : Q) (s s' : Game) :
  gameLoop currentTime s = Ok s' → Inv s → Inv s'.
Proof.
  unfold gameLoop. intros H Hs. apply (Inv_set_lastTime currentTime) in Hs.
  destruct (isPlaying _).
  - destruct (hitstop _ >? 0).
    + apply Ok_inj in H. subst s'. now apply Inv_hitstopFrame.
    + exact (Inv_normalFrame _ _ _ _ H Hs).
  - apply Ok_inj in H. now subst s'.
Qed.

Lemma Inv_restart (s : Game) : Inv s → Inv (restart s).
Proof.
  intros (_ & _ & _ & _ & _ & Hr). unfold Inv, restart, new_Player. fields.
  repeat split; try lra; try lia. exact Hr.
Qed.

Lemma Inv_onKeyDown (key : string) (s : Game) : Inv s → Inv (onKeyDown key s).
Proof.
  intros Hs. unfold onKeyDown.
  set (s1 := set_keys _ s).
  assert (H1 : Inv s1) by (subst s1; now destruct s). clearbody s1.
  set (s2 := if (_ || _ || _) then _ else s1).
  assert (H2 : Inv s2) by (subst s2; destruct (_ || _ || _); [now destruct s1 | assumption]).
  clearbody s2.
  set (s3 := if (_ || _) then restart s2 else s2).
  assert (H3 : Inv s3) by (subst s3; destruct (_ || _); [now apply Inv_restart | assumption]).
  clearbody s3.
  set (s4 := if (_ || _) then _ else s3).
  assert (H4 : Inv s4) by (subst s4; destruct (_ || _); [now destruct s3 | assumption]).
  clearbody s4.
  destruct (_ || _); [now destruct s4 | assumption].
Qed.

Lemma Inv_handle (ev : Event) (s s' : Game) : handle ev s = Ok s' → Inv s → Inv s'.
Proof.
  destruct ev; cbn [handle]; try (intros H; apply Ok_inj in H; subst s').
  - apply Inv_onKeyDown.
  - now destruct s.
  - now destruct s.
  - unfold onMouseDown. destruct (_ =? _)%Z; [now destruct s | auto].
  - unfold onMouseUp. destruct (_ =? _)%Z; [now destruct s | auto].
  - apply Inv_gameLoop.
Qed.

Lemma Inv_initial : Inv initial.
Proof. unfold Inv, initial, new_Player. fields. repeat split; try lra; try lia. Qed.

Lemma Inv_run (evs : list Event) (s s' : Game) : run evs s = Ok s' → Inv s → Inv s'.
Proof.
  revert s. induction evs as [|ev evs IH]; intros s.
  - cbn. intros H. apply Ok_inj in H. now subst s'.
  - cbn [run]. destruct (handle ev s) as [s1|] eqn:E; [|discriminate].
    cbn [mbind Result_bind]. intros H Hs. apply (IH _ H). exact (Inv_handle _ _ _ E Hs).
Qed.

Lemma Inv_reachable (s : Game) : reachable s → Inv s.
Proof. intros [evs H]. exact (Inv_run _ _ _ H Inv_initial). Qed.

Lemma normalFrame_total (currentTime dt : Q) (s : Game) :
  (∀ q, 0 < q → ¬ Math_sqrt host q == 0) →
  ∃ s', normalFrame currentTime dt s = Ok s'.
Proof.
  intros Hsqrt. unfold normalFrame.
  destruct (Player_update_total Hsqrt dt (updateComboTimer dt (decayShake s))) as [s1 ->].
  cbn [mbind Result_bind].
  destruct (updateEnemies_total dt
              (spawning dt (updateBullets dt (shooting (currentTime / 1000) s1))))
    as [s2 ->].
  cbn [mbind Result_bind]. apply checkCollisions_total.
Qed.

Lemma gameLoop_total (currentTime : Q) (s : Game) :
  (∀ q, 0 < q → ¬ Math_sqrt host q == 0) →
  ∃ s', gameLoop currentTime s = Ok s'.
Proof.
  intros Hsqrt. unfold gameLoop. destruct (isPlaying _); [|eauto].
  destruct (hitstop _ >? 0); [eauto|]. now apply normalFrame_total.
Qed.

Lemma run_total (evs : list Event) (s : Game) :
  (∀ q, 0 < q → ¬ Math_sqrt host q == 0) →
  ∃ s', run evs s = Ok s'.
Proof.
  intros Hsqrt. revert s. induction evs as [|ev evs IH]; intros s; [cbn; eauto|].
  cbn [run].
  assert (H : ∃ s1, handle ev s = Ok s1)
    by (destruct ev; cbn [handle]; eauto using gameLoop_total).
  destruct H as [s1 ->]. cbn [mbind Result_bind]. apply IH.
Qed.

(** ** Bounds, waves, restart *)

(** C2.  In every state reached from the initial one by any sequence of
    frames and input events, [0 <= player.hp <= player.maxHp] and
    [combo >= 0]. *)
Theorem hp_and_combo_bounded (evs : list Event) (s : Game) :
  run evs initial = Ok s →
  0 <= Player.hp (player s)
  ∧ Player.hp (player s) <= Player.maxHp (player s)
  ∧ (0 <= combo s)%Z.
Proof.
  intros H. destruct (Inv_run _ _ _ H Inv_initial) as (H0 & H1 & H2 & _). auto.
Qed.

(** C5, as the code has it.  A frame taken with the banner timer at or below
    zero, no enemy and the spawn timer at or below zero does not change the
    wave: the spawn step, which comes first, puts an enemy in the list and
    restarts the spawn timer, and the test for the next wave then fails.  The
    wave number, the target population and the spawn interval are the ones
    before the frame. *)
Theorem wave_change_preempted (currentTime : Q) (s : Game) :
  (∀ q, 0 < q → ¬ Math_sqrt host q == 0) →
  reachable s →
  isPlaying s = true →
  hitstop s <= 0 →
  waveBannerTime s <= 0 →
  enemies s = [] →
  enemySpawnTimer s <= 0 →
  ∃ s', gameLoop currentTime s = Ok s'
    ∧ wave s' = wave s
    ∧ enemiesPerWave s' = enemiesPerWave s
    ∧ enemySpawnRate s' = enemySpawnRate s.
Proof.
  intros Hsqrt Hreach _ _ _ _ _.
  destruct (gameLoop_total currentTime s Hsqrt) as [s' H]. exists s'.
  pose proof (Inv_reachable s Hreach) as Hs.
  pose proof (Inv_gameLoop _ _ _ H Hs) as Hs'.
  destruct Hs as (_ & _ & _ & Hw & He & Hr).
  destruct Hs' as (_ & _ & _ & Hw' & He' & Hr').
  repeat split; congruence.
Qed.

(** C6.  After any sequence of frames and input events, [restart] gives
    score 0, wave 1, no bullets, enemies or particles, a new player with
    full hp, combo 0, and every counter at its initial value, the spawn
    interval and the target population among them. *)
Theorem restart_resets (evs : list Event) (s : Game) :
  run evs initial = Ok s →
  let r := restart s in
  score r = 0%Z ∧ wave r = 1%Z
  ∧ bullets r = [] ∧ enemies r = [] ∧ particles r = []
  ∧ player r = new_Player
  ∧ Player.hp (player r) = Player.maxHp (player r)
  ∧ combo r = 0%Z ∧ comboTimer r = comboTimer initial
  ∧ enemySpawnRate r = enemySpawnRate initial
  ∧ enemiesPerWave r = enemiesPerWave initial
  ∧ enemySpawnTimer r = enemySpawnTimer initial
  ∧ waveBannerTime r = waveBannerTime initial
  ∧ hitstop r = hitstop initial
  ∧ screenShake r = screenShake initial
  ∧ lastShotTime r = lastShotTime initial
  ∧ gameState r = Playing ∧ paused r = false.
Proof.
  intros H. destruct (Inv_run _ _ _ H Inv_initial) as (_ & _ & _ & _ & _ & Hr).
  cbn zeta. unfold restart, initial. fields. rewrite Hr. repeat split.
Qed.

(** ** The outcome of the bullet pass *)

Lemma pick_None (b : Bullet.t) (es : list Enemy.t) :
  pick b es = None → List.Forall (fun e => bulletHitsEnemy b e = false) es.
Proof.
  induction es as [|e es IH]; cbn [pick]; [constructor|].
  destruct (bulletHitsEnemy b e) eqn:E; [discriminate|].
  destruct (pick b es) as [[hit rest]|]; [discriminate|].
  intros _. constructor; auto.
Qed.

Lemma pick_Some (b : Bullet.t) (es : list Enemy.t) (hit : Enemy.t) (rest : list Enemy.t) :
  pick b es = Some (hit, rest) →
  bulletHitsEnemy b hit = true
  ∧ length es = S (length rest)
  ∧ (∀ e, In e rest → In e es).
Proof.
  revert rest. induction es as [|e es IH]; intros rest; cbn [pick]; [discriminate|].
  destruct (bulletHitsEnemy b e) eqn:E.
  - intros [= <- <-]. repeat split; [assumption|]. intros e'. apply in_cons.
  - destruct (pick b es) as [[hit' rest']|]; [|discriminate].
    intros [= <- <-]. destruct (IH rest' eq_refl) as (Hh & Hl & Hin).
    repeat split; [assumption | cbn; lia |].
    intros e' [-> | He']; [now left | right; auto].
Qed.

(** [k] hits from a combo of [c]: [k] bullets and [k] enemies fewer, combo
    [c + k], score up by [10 * (c+1) + ... + 10 * (c+k)], and no bullet that
    stays overlaps an enemy that stays. *)
Lemma resolveInOrder_outcome (bs : list Bullet.t) (es : list Enemy.t) (s : Game) :
  ∃ k : nat,
    let '(kept, rest, s') := resolveInOrder bs es s in
    (length kept + k = length bs)%nat
    ∧ (length rest + k = length es)%nat
    ∧ combo s' = (combo s + Z.of_nat k)%Z
    ∧ score s' = (score s + 10 * Z.of_nat k * combo s
                  + 5 * Z.of_nat k * (Z.of_nat k + 1))%Z
    ∧ (k = 0%nat → s' = s ∧ kept = bs ∧ rest = es)
    ∧ ((0 < k)%nat → comboTimer s' = comboResetTime ∧ hitstop s' = 0.05)
    ∧ (∀ e, In e rest → In e es)
    ∧ (∀ b, In b kept → In b bs)
    ∧ (∀ b e, In b kept → In e rest → bulletHitsEnemy b e = false)
    ∧ player s' = player s ∧ waveBannerTime s' = waveBannerTime s.
Proof.
  revert es s. induction bs as [|b bs IH]; intros es s.
  - exists 0%nat. cbn. repeat split; auto; lia.
  - cbn [resolveInOrder]. destruct (pick b es) as [[hit rest1]|] eqn:Ep.
    + destruct (IH rest1 (hitEffects hit s)) as [k Hk]. exists (S k).
      destruct (resolveInOrder bs rest1 (hitEffects hit s)) as [[kept rest] s'].
      destruct Hk as (Hb & He & Hc & Hs & H0 & Ht & Hin & Hinb & Hmiss & Hp & Hw).
      apply pick_Some in Ep as (_ & Hl & Hin1).
      destruct (hitEffects_fields hit s)
        as (Fc & Ft & Fs & Fh & Fp & _ & _ & _ & _ & _ & _ & _ & _ & _ & Fw & _).
      rewrite Fc, Fs, Fp, Fw in *.
      split; [cbn; lia|]. split; [lia|]. split; [lia|]. split; [lia|].
      split; [discriminate|]. split.
      * intros _. destruct k; [destruct (H0 eq_refl) as (-> & _); auto | apply Ht; lia].
      * repeat split; auto. intros b' Hb'. right. auto.
    + destruct (IH es s) as [k Hk]. exists k.
      destruct (resolveInOrder bs es s) as [[kept rest] s'].
      destruct Hk as (Hb & He & Hc & Hs & H0 & Ht & Hin & Hinb & Hmiss & Hp & Hw).
      apply pick_None in Ep. rewrite List.Forall_forall in Ep.
      split; [cbn; lia|]. repeat split; auto.
      * now apply H0.
      * f_equal. now apply H0.
      * now apply H0.
      * now apply Ht.
      * now apply Ht.
      * intros b' [<- | Hb']; [now left | right; auto].
      * intros b' e [<- | Hb'] He'; auto.
Qed.

Lemma bulletsVsEnemies_outcome (s : Game) :
  ∃ (s' : Game) (k : nat),
    bulletsVsEnemies s = Ok s'
    ∧ (length (bullets s') + k = length (bullets s))%nat
    ∧ (length (enemies s') + k = length (enemies s))%nat
    ∧ combo s' = (combo s + Z.of_nat k)%Z
    ∧ score s' = (score s + 10 * Z.of_nat k * combo s
                  + 5 * Z.of_nat k * (Z.of_nat k + 1))%Z
    ∧ (k = 0%nat → s' = s)
    ∧ ((0 < k)%nat → comboTimer s' = comboResetTime ∧ hitstop s' = 0.05)
    ∧ (∀ b, In b (bullets s') → In b (bullets s))
    ∧ (∀ e, In e (enemies s') → In e (enemies s))
    ∧ (∀ b e, In b (bullets s') → In e (enemies s') → bulletHitsEnemy b e = false)
    ∧ player s' = player s ∧ waveBannerTime s' = waveBannerTime s.
Proof.
  rewrite bulletsVsEnemies_reverseOrder. unfold pass_reverseOrder.
  destruct (resolveInOrder_outcome (rev (bullets s)) (rev (enemies s)) s) as [k Hk].
  destruct (resolveInOrder _ _ s) as [[kept rest] s'].
  destruct Hk as (Hb & He & Hc & Hs & H0 & Ht & Hin & Hinb & Hmiss & Hp & Hw).
  rewrite !length_rev in *.
  exists (set_bullets (rev kept) (set_enemies (rev rest) s')), k.
  split; [reflexivity|].
  fields. rewrite !length_rev.
  repeat split; try assumption.
  - intros Hz. destruct (H0 Hz) as (-> & -> & ->).
    rewrite !rev_involutive. now destruct s.
  - now apply Ht.
  - now apply Ht.
  - intros b Hb'. apply in_rev, Hinb, in_rev in Hb'. exact Hb'.
  - intros e He'. apply in_rev, Hin, in_rev in He'. exact He'.
  - intros b e Hb' He'. apply Hmiss; now apply in_rev.
Qed.

(** X2: the bullet pass as a whole.  With [k] the number of pairs it
    resolves: [k] bullets and [k] enemies are gone, the others are still
    there, the combo has grown by [k], the score by ten times the combos
    passed through, nothing at all has changed when [k] is zero, and no
    bullet that is left overlaps an enemy that is left. *)
Theorem bullet_pass_outcome (s : Game) :
  ∃ (s' : Game) (k : nat),
    bulletsVsEnemies s = Ok s'
    ∧ (length (bullets s') + k = length (bullets s))%nat
    ∧ (length (enemies s') + k = length (enemies s))%nat
    ∧ combo s' = (combo s + Z.of_nat k)%Z
    ∧ score s' = (score s + 10 * Z.of_nat k * combo s
                  + 5 * Z.of_nat k * (Z.of_nat k + 1))%Z
    ∧ (k = 0%nat → s' = s)
    ∧ ((0 < k)%nat → comboTimer s' = comboResetTime ∧ hitstop s' = 0.05)
    ∧ (∀ b, In b (bullets s') → In b (bullets s))
    ∧ (∀ e, In e (enemies s') → In e (enemies s))
    ∧ (∀ b e, In b (bullets s') → In e (enemies s') → bulletHitsEnemy b e = false)
    ∧ player s' = player s ∧ waveBannerTime s' = waveBannerTime s.
Proof. apply bulletsVsEnemies_outcome. Qed.

(** ** Damage and the contact pass *)

Lemma takeDamage_hits (amount : Q) (s : Game) :
  protected (player s) = false →
  let r := Player_takeDamage amount s in
  r.1 = (Player.hp (player s) - amount <=? 0)
  ∧ player r.2 = damaged amount (player s)
  ∧ hitstop r.2 = 0.03
  ∧ (randomCalls r.2 = randomCalls s + 2)%nat
  ∧ enemies r.2 = enemies s ∧ bullets r.2 = bullets s
  ∧ score r.2 = score s ∧ combo r.2 = combo s ∧ comboTimer r.2 = comboTimer s
  ∧ gameState r.2 = gameState s.
Proof.
  intros Hp. cbn zeta. unfold Player_takeDamage. fold (protected (player s)).
  rewrite Hp. clear Hp.
  assert (Hr : ∀ i s0, randomCalls (addShake i s0) = (randomCalls s0 + 2)%nat)
    by (intros i s0; destruct s0; cbn; lia).
  assert (Hs : ∀ f d ty v s0, randomCalls (playSound f d ty v 0 s0) = randomCalls s0).
  { intros f d ty v s0. unfold playSound. destruct (_ || _); [reflexivity|].
    now destruct s0. }
  set (p1 := Player.set_invulnerable _ _).
  set (s1 := set_hitstop 0.03 (addShake 6 (set_player p1 s))).
  assert (Hc1 : cosmeticOnly (set_hitstop 0.03 (set_player p1 s)) s1).
  { subst s1. destruct (addShake_cosmetic 6 (set_player p1 s)) as (ps & sh & sds & n & ->).
    now exists ps, sh, sds, n. }
  assert (Hr1 : randomCalls s1 = (randomCalls s + 2)%nat)
    by (subst s1; change (randomCalls (set_hitstop ?h ?x)) with (randomCalls x);
        now rewrite Hr).
  clearbody s1.
  set (s2 := playSound 150 0.08 square 0.4 0 s1).
  assert (Hc2 : cosmeticOnly (set_hitstop 0.03 (set_player p1 s)) s2)
    by (eapply cosmeticOnly_trans; [exact Hc1 | apply playSound_cosmetic]).
  assert (Hr2 : randomCalls s2 = (randomCalls s + 2)%nat)
    by (subst s2; now rewrite Hs).
  clearbody s2. clear Hc1 Hr1 s1.
  destruct Hc2 as (ps & sh & sds & n & ->). revert Hr2. fields. intros Hr2.
  assert (Hhp : Player.hp p1 = Player.hp (player s) - amount)
    by (subst p1; now destruct (player s)).
  rewrite Hhp.
  destruct (Player.hp (player s) - amount <=? 0) eqn:E.
  - match goal with |- context [playSound ?a ?b ?c ?d 0 ?x] =>
      pose proof (Hs a b c d x) as Hr3;
      destruct (playSound_cosmetic a b c d 0 x) as (ps' & sh' & sds' & n' & E')
    end.
    rewrite E' in *. clear E'. cbn [fst snd]. revert Hr3. fields. intros ->.
    unfold damaged. rewrite E. subst p1. repeat split; auto.
  - cbn [fst snd]. fields. unfold damaged. rewrite E. subst p1.
    repeat split; auto.
Qed.

(** X3: [takeDamage] on a player that is neither invulnerable nor dashing:
    hp goes down by [amount] and stops at zero, the invulnerability window
    is set to [invulnerableTime], the hit-stop to 0.03, the shake draws two
    random numbers, and the call returns true exactly when hp has reached
    zero. *)
Theorem takeDamage_unprotected (amount : Q) (s : Game) :
  protected (player s) = false →
  let r := Player_takeDamage amount s in
  r.1 = (Player.hp (player s) - amount <=? 0)
  ∧ player r.2 = damaged amount (player s)
  ∧ hitstop r.2 = 0.03
  ∧ (randomCalls r.2 = randomCalls s + 2)%nat
  ∧ enemies r.2 = enemies s ∧ bullets r.2 = bullets s
  ∧ score r.2 = score s ∧ combo r.2 = combo s ∧ comboTimer r.2 = comboTimer s
  ∧ gameState r.2 = gameState s.
Proof. apply takeDamage_hits. Qed.

Lemma protected_blocked (amount : Q) (s : Game) :
  protected (player s) = true → Player_takeDamage amount s = (false, s).
Proof.
  intros H. apply takeDamage_blocked. unfold protected in H.
  apply orb_true_iff in H as [H | H]; [left; now apply Qgtb_gt | now right].
Qed.

Lemma resolveContact_outcome (i : nat) (e : Enemy.t) (s : Game) :
  let s' := resolveContact i e s in
  player s' = (if protected (player s) then player s else damaged 10 (player s))
  ∧ enemies s' = delete i (enemies s) ∧ bullets s' = bullets s
  ∧ score s' = (score s + 10)%Z ∧ combo s' = 0%Z ∧ comboTimer s' = 0
  ∧ hitstop s' = 0.03
  ∧ gameState s'
    = (if negb (protected (player s)) && (Player.hp (player s) - 10 <=? 0)
       then GameOver else gameState s).
Proof.
  cbn zeta. unfold resolveContact. destruct (protected (player s)) eqn:Hp.
  - rewrite (protected_blocked 10 s Hp). cosmetics. fields. repeat split.
  - pose proof (takeDamage_hits 10 s Hp) as H. cbn zeta in H.
    destruct (Player_takeDamage 10 s) as [died s1]. cbn [fst snd] in H.
    destruct H as (-> & Hpl & _ & _ & Hes & Hbs & Hsc & _ & _ & Hg).
    cbn [negb andb].
    destruct (Player.hp (player s) - 10 <=? 0); cosmetics; fields;
      rewrite ?Hpl, ?Hes, ?Hbs, ?Hsc, ?Hg; repeat split.
Qed.

Lemma enemyHitsPlayer_damaged (e : Enemy.t) (amount : Q) (p : Player.t) :
  enemyHitsPlayer e (damaged amount p) = enemyHitsPlayer e p.
Proof. now destruct p. Qed.

Lemma protected_damaged (amount : Q) (p : Player.t) :
  0 < Player.invulnerableTime p → protected (damaged amount p) = true.
Proof.
  intros H. unfold protected, damaged.
  replace (Player.invulnerable _) with (Player.invulnerableTime p) by now destruct p.
  apply Qgtb_gt in H. now rewrite H.
Qed.

Lemma damaged_invulnerableTime (amount : Q) (p : Player.t) :
  Player.invulnerableTime (damaged amount p) = Player.invulnerableTime p.
Proof. now destruct p. Qed.

(** The second loop over the first [n] enemies. *)
Lemma scanContacts_outcome (n : nat) (s : Game) :
  0 < Player.invulnerableTime (player s) →
  (n ≤ length (enemies s))%nat →
  let p := player s in
  let hit := touching p (take n (enemies s)) in
  ∃ s', scanContacts n s = Ok s'
    ∧ enemies s' = clear p (take n (enemies s)) ++ drop n (enemies s)
    ∧ bullets s' = bullets s
    ∧ score s' = (score s + 10 * Z.of_nat (length hit))%Z
    ∧ player s'
      = (if negb (protected p) && negb (Nat.eqb (length hit) 0) then damaged 10 p else p)
    ∧ (hit = [] → s' = s)
    ∧ (hit ≠ [] → combo s' = 0%Z ∧ comboTimer s' = 0 ∧ hitstop s' = 0.03)
    ∧ gameState s'
      = (if negb (protected p) && negb (Nat.eqb (length hit) 0)
            && (Player.hp p - 10 <=? 0)
         then GameOver else gameState s).
Proof.
  revert s. induction n as [|i IH]; intros s Htime Hn; cbn zeta.
  - exists s. cbn [scanContacts]. rewrite take_0, drop_0. cbn.
    rewrite !andb_false_r. cbn [andb]. repeat split; auto; try lia; congruence.
  - cbn [scanContacts].
    destruct (lookup_lt_is_Some_2 (enemies s) i ltac:(lia)) as [e He]. rewrite He.
    rewrite (take_S_r _ _ _ He). unfold touching, clear.
    rewrite !List.filter_app. cbn [List.filter].
    destruct (enemyHitsPlayer e (player s)) eqn:Et; cbn [negb].
    + destruct (resolveContact_outcome i e s)
        as (Hpl & Hes & Hbs & Hsc & Hc & Ht & Hh & Hg).
      set (s1 := resolveContact i e s) in *. clearbody s1.
      assert (Hpos : ∀ e', enemyHitsPlayer e' (player s1) = enemyHitsPlayer e' (player s))
        by (intros e'; rewrite Hpl; destruct (protected _);
            [reflexivity | apply enemyHitsPlayer_damaged]).
      assert (Htime1 : 0 < Player.invulnerableTime (player s1))
        by (rewrite Hpl; destruct (protected _);
            [assumption | now rewrite damaged_invulnerableTime]).
      assert (Hn1 : (i ≤ length (enemies s1))%nat)
        by (rewrite Hes, length_delete by eauto; lia).
      destruct (IH s1 Htime1 Hn1) as (s' & -> & IHe & IHb & IHs & IHp & IH0 & IHc & IHg).
      exists s'. split; [reflexivity|].
      unfold touching, clear in *.
      rewrite (List.filter_ext _ _ Hpos) in *.
      assert (Hneg : ∀ e', negb (enemyHitsPlayer e' (player s1))
                           = negb (enemyHitsPlayer e' (player s)))
        by (intros e'; now rewrite Hpos).
      rewrite (List.filter_ext _ _ Hneg) in IHe.
      rewrite Hes, take_delete, drop_delete in *.
      rewrite length_app, app_nil_r. cbn [length].
      set (hit := List.filter (fun e0 => enemyHitsPlayer e0 (player s))
                    (take i (enemies s))) in *.
      replace (length hit + 1 =? 0)%nat with false by (symmetry; apply Nat.eqb_neq; lia).
      cbn [negb]. rewrite andb_true_r.
      split; [exact IHe|]. split; [congruence|]. split; [rewrite IHs, Hsc; lia|].
      assert (Hprot1 : protected (player s1) = true ∨ protected (player s) = true
                       ∧ player s1 = player s).
      { rewrite Hpl. destruct (protected (player s)) eqn:Hp; [right; auto|].
        left. now apply protected_damaged. }
      split.
      { rewrite IHp. destruct Hprot1 as [-> | [Hp Heq]].
        - cbn [negb andb]. rewrite Hpl. now destruct (protected (player s)).
        - rewrite Heq, Hp. reflexivity. }
      split; [intros Habs; destruct hit; discriminate|].
      split.
      { intros _. destruct hit as [|h hit'] eqn:Eh.
        - rewrite (IH0 eq_refl). auto.
        - apply IHc. discriminate. }
      rewrite IHg, Hg.
      destruct Hprot1 as [-> | [Hp Heq]]; cbn [negb andb]; [reflexivity|].
      rewrite Heq, Hp. reflexivity.
    + rewrite !app_nil_r.
      destruct (IH s Htime ltac:(lia)) as (s' & -> & IHe & IHb & IHs & IHp & IH0 & IHc & IHg).
      exists s'. split; [reflexivity|]. unfold touching, clear in *.
      rewrite IHe, <- app_assoc. cbn [app]. rewrite (drop_S _ _ _ He).
      repeat split; auto; now apply IHc.
Qed.

(** X4: the pass "Enemies vs Player" as a whole.  Every enemy that touches
    the player is removed and gives 10 points, the others stay, in order;
    the player is hurt once, by 10, however many enemies touch it, and not
    at all while protected; one contact clears the combo and its timer; a
    blow that takes hp to zero ends the game. *)
Theorem contact_pass_outcome (s : Game) :
  0 < Player.invulnerableTime (player s) →
  let p := player s in
  let hit := touching p (enemies s) in
  ∃ s', enemiesVsPlayer s = Ok s'
    ∧ enemies s' = clear p (enemies s)
    ∧ bullets s' = bullets s
    ∧ score s' = (score s + 10 * Z.of_nat (length hit))%Z
    ∧ player s'
      = (if negb (protected p) && negb (Nat.eqb (length hit) 0) then damaged 10 p else p)
    ∧ (hit = [] → s' = s)
    ∧ (hit ≠ [] → combo s' = 0%Z ∧ comboTimer s' = 0 ∧ hitstop s' = 0.03)
    ∧ gameState s'
      = (if negb (protected p) && negb (Nat.eqb (length hit) 0)
            && (Player.hp p - 10 <=? 0)
         then GameOver else gameState s).
Proof.
  intros Htime. cbn zeta. unfold enemiesVsPlayer.
  destruct (scanContacts_outcome (length (enemies s)) s Htime ltac:(lia)) as (s' & H).
  cbn zeta in H. rewrite firstn_all, drop_all, app_nil_r in H. now exists s'.
Qed.

(** ** More invariants of the run *)

Lemma Tidy_cosmetic (s s' : Game) : cosmeticOnly s s' → Tidy s → Tidy s'.
Proof. intros (ps & sh & sds & n & ->). now destruct s. Qed.

Lemma OnScreen_cosmetic (s s' : Game) : cosmeticOnly s s' → OnScreen s → OnScreen s'.
Proof. intros (ps & sh & sds & n & ->). now destruct s. Qed.

Lemma Tidy_updateComboTimer (dt : Q) (s : Game) : Tidy s → Tidy (updateComboTimer dt s).
Proof.
  unfold updateComboTimer, Tidy. intros (Hg & Hs & He & Hc & Hw).
  destruct (comboTimer s >? 0) eqn:E; [|auto].
  fields. destruct (comboTimer s - dt <=? 0) eqn:E'; fields; repeat split; auto.
  apply Qleb_gt in E'. intros Habs. lra.
Qed.

Lemma fadeGhosts_length (dt : Q) (gs : list Ghost.t) :
  (length (fadeGhosts dt gs) ≤ length gs)%nat.
Proof.
  unfold fadeGhosts. etransitivity; [apply List.filter_length_le|].
  now rewrite length_map.
Qed.

Lemma dashMovement_ghosts (dt : Q) (p : Player.t) :
  (length (Player.ghostAfterimages p) ≤ 5)%nat →
  (length (Player.ghostAfterimages (dashMovement dt p)) ≤ 5)%nat.
Proof.
  intros H. unfold dashMovement. destruct (Player.dashActive p).
  - assert (Hl : (length (Player.ghostAfterimages
                    (if (5 <? length (Player.ghostAfterimages p ++ [{| Ghost.x := Player.x p;
                            Ghost.y := Player.y p; Ghost.angle := Player.angle p;
                            Ghost.alpha := 0.6; Ghost.age := 0 |}]))%nat
                     then Player.set_ghostAfterimages
                            (tail (Player.ghostAfterimages p ++ [{| Ghost.x := Player.x p;
                               Ghost.y := Player.y p; Ghost.angle := Player.angle p;
                               Ghost.alpha := 0.6; Ghost.age := 0 |}])) p
                     else Player.set_ghostAfterimages
                            (Player.ghostAfterimages p ++ [{| Ghost.x := Player.x p;
                               Ghost.y := Player.y p; Ghost.angle := Player.angle p;
                               Ghost.alpha := 0.6; Ghost.age := 0 |}]) p)) ≤ 5)%nat).
    { destruct (5 <? _)%nat eqn:E; fields.
      - destruct (Player.ghostAfterimages p) as [|g gs]; cbn in *; [lia|].
        rewrite length_app in *. cbn in *. lia.
      - apply Nat.ltb_ge in E. exact E. }
    destruct p. cbn -[Nat.ltb Qleb Qplus Qminus Qmult] in *.
    destruct (5 <? _)%nat; destruct (_ <=? 0); exact Hl.
  - fields. etransitivity; [apply fadeGhosts_length | exact H].
Qed.

Lemma Player_update_ghosts (dt : Q) (s s' : Game) :
  Player_update dt s = Ok s' →
  (length (Player.ghostAfterimages (player s)) ≤ 5)%nat →
  (length (Player.ghostAfterimages (player s')) ≤ 5)%nat.
Proof.
  unfold Player_update.
  set (s0 := set_player (updateDashCooldown dt (player s)) s).
  assert (H0 : Player.ghostAfterimages (player s0) = Player.ghostAfterimages (player s))
    by (subst s0; fields; unfold updateDashCooldown; destruct (_ >? 0);
        now destruct (player s)).
  clearbody s0.
  destruct (dashActivation s0) as [s1|] eqn:E1; [|discriminate].
  cbn [mbind Result_bind].
  destruct (normalMovement _ _ _) as [p3|] eqn:E3; [|discriminate].
  cbn [mbind Result_bind]. intros H. apply Ok_inj in H. subst s'. fields.
  assert (H1 : Player.ghostAfterimages (player s1) = Player.ghostAfterimages (player s0)).
  { revert E1. unfold dashActivation. destruct (dashRequested s0).
    - destruct (heldDirection (keys s0)) as [dx dy].
      set (dir := if Qneb dx 0 || Qneb dy 0 then _ else _).
      destruct dir as [d|]; [|discriminate].
      cbn -[spawnParticles addShake playSound]. intros H. apply Ok_inj in H. subst s1.
      cosmetics. fields. reflexivity.
    - intros H. apply Ok_inj in H. now subst s1. }
  assert (H3 : Player.ghostAfterimages p3
               = Player.ghostAfterimages (dashMovement dt (player s1))).
  { revert E3. unfold normalMovement.
    assert (Hr : Player.ghostAfterimages (updateRecoil dt (dashMovement dt (player s1)))
                 = Player.ghostAfterimages (dashMovement dt (player s1))).
    { unfold updateRecoil. destruct (_ >? 0); [|reflexivity].
      destruct (_ <? 0); now destruct (dashMovement dt (player s1)). }
    revert Hr. generalize (updateRecoil dt (dashMovement dt (player s1))). intros p2 Hr.
    destruct (negb (Player.dashActive p2)); [|intros H; apply Ok_inj in H; now subst p3].
    destruct (heldDirection (keys s1)) as [dx dy].
    destruct (Qneb dx 0 || Qneb dy 0); [|intros H; apply Ok_inj in H; now subst p3].
    destruct (divide dx _) as [nx|]; [|discriminate].
    destruct (divide dy _) as [ny|]; [|discriminate].
    cbn. intros H. apply Ok_inj in H. subst p3. fields. exact Hr. }
  intros Hle.
  assert (H4 : Player.ghostAfterimages
                 (updateInvulnerability dt (aimAtMouse (mouse s1) (keepInBounds p3)))
               = Player.ghostAfterimages p3).
  { unfold updateInvulnerability. destruct (_ && _); now destruct p3. }
  rewrite H4, H3. apply dashMovement_ghosts. now rewrite H1, H0.
Qed.

Lemma Tidy_Player_update (dt : Q) (s s' : Game) :
  Player_update dt s = Ok s' → Tidy s → Tidy s'.
Proof.
  intros H Hs. pose proof (Player_update_ghosts _ _ _ H) as Hg.
  apply Player_update_frame in H as (p' & s1 & Hc & -> & _).
  apply (Tidy_cosmetic _ _ Hc) in Hs.
  destruct Hc as (ps & sh & sds & n & ->).
  unfold Tidy in *. revert Hg Hs. fields. intuition.
Qed.

Lemma Tidy_shooting (now : Q) (s : Game) : Tidy s → Tidy (shooting now s).
Proof.
  unfold shooting. destruct (_ && _); [|auto].
  intros Hs. cosmetics. revert Hs. unfold Tidy. fields. now destruct (player s).
Qed.

Lemma Tidy_updateBullets (dt : Q) (s : Game) : Tidy s → Tidy (updateBullets dt s).
Proof. now destruct s. Qed.

(** The filter of the frame leaves on-screen bullets only. *)
Lemma OnScreen_updateBullets (dt : Q) (s : Game) : OnScreen (updateBullets dt s).
Proof.
  unfold OnScreen, updateBullets. fields. apply List.Forall_forall.
  intros b Hb. apply List.filter_In in Hb as [_ Hb]. now apply negb_true_iff in Hb.
Qed.

Lemma Tidy_spawning (dt : Q) (s : Game) :
  enemiesPerWave s = 5%Z → Tidy s → Tidy (spawning dt s).
Proof.
  intros H5 (Hg & Hs & He & Hc & Hw). unfold spawning. fields.
  destruct (waveBannerTime s <=? 0); cbn [andb]; [|unfold Tidy; fields; auto].
  destruct (enemySpawnTimer s - dt <=? 0); cbn [andb]; [|unfold Tidy; fields; auto].
  destruct (Z.of_nat (length (enemies s)) <? enemiesPerWave s)%Z eqn:E;
    [|unfold Tidy; fields; auto].
  rewrite spawnEnemy_frame. unfold Tidy. fields.
  repeat split; auto. rewrite length_app. cbn. apply Z.ltb_lt in E. lia.
Qed.

Lemma OnScreen_spawning (dt : Q) (s : Game) : OnScreen s → OnScreen (spawning dt s).
Proof.
  unfold spawning. fields. destruct (_ && _ && _); [|now destruct s].
  rewrite spawnEnemy_frame. now destruct s.
Qed.

Lemma Tidy_set_enemies (es : list Enemy.t) (s : Game) :
  length es = length (enemies s) → Tidy s → Tidy (set_enemies es s).
Proof. intros Hl. unfold Tidy. fields. now rewrite Hl. Qed.

Lemma Tidy_updateParticles (dt : Q) (s : Game) : Tidy s → Tidy (updateParticles dt s).
Proof. now destruct s. Qed.

Lemma Tidy_waveProgress (dt : Q) (s : Game) :
  waveBlocked s → Tidy s → Tidy (waveProgress dt s).
Proof.
  intros Hb Hs. rewrite (waveProgress_blocked dt s Hb).
  destruct Hs as (Hg & Hs & He & Hc & Hw). rewrite Hw.
  change (0 >? 0) with false. cbn iota. unfold Tidy. auto.
Qed.

Lemma OnScreen_waveProgress (dt : Q) (s : Game) :
  waveBlocked s → OnScreen s → OnScreen (waveProgress dt s).
Proof.
  intros Hb. rewrite (waveProgress_blocked dt s Hb).
  destruct (_ >? 0); [now destruct s | auto].
Qed.

Lemma Tidy_bulletsVsEnemies (s s' : Game) :
  bulletsVsEnemies s = Ok s' → (0 <= combo s)%Z → Tidy s → Tidy s'.
Proof.
  intros H Hcombo (Hg & Hs & He & Hc & Hw).
  destruct (bulletsVsEnemies_outcome s)
    as (s1 & k & H1 & Lb & Le & Kc & Ks & K0 & Kt & _ & _ & _ & Kp & Kw).
  rewrite H1 in H. apply Ok_inj in H. subst s1.
  unfold Tidy. rewrite Kp, Kw, Ks. repeat split; auto; try nia.
  destruct k as [|k]; [now rewrite (K0 eq_refl)|].
  destruct (Kt ltac:(lia)) as [-> _]. unfold comboResetTime. intros Habs. lra.
Qed.

Lemma OnScreen_bulletsVsEnemies (s s' : Game) :
  bulletsVsEnemies s = Ok s' → OnScreen s → OnScreen s'.
Proof.
  intros H Hs.
  destruct (bulletsVsEnemies_outcome s) as (s1 & k & H1 & _ & _ & _ & _ & _ & _ & Hin & _).
  rewrite H1 in H. apply Ok_inj in H. subst s1.
  unfold OnScreen in *. rewrite List.Forall_forall in *. auto.
Qed.

Lemma Tidy_resolveContact (i : nat) (e : Enemy.t) (s : Game) :
  Tidy s → Tidy (resolveContact i e s).
Proof.
  destruct (resolveContact_fields i e s)
    as (_ & _ & Hc & _ & _ & _ & Hes & _ & Hsc & _ & _ & Hw & Hg & Ht).
  unfold Tidy. rewrite Hc, Hes, Hsc, Hw, Hg. intros (H1 & H2 & H3 & H4 & H5).
  repeat split; auto; try lia.
  pose proof (sublist_length _ _ (sublist_delete (enemies s) i)). lia.
Qed.

Lemma OnScreen_resolveContact (i : nat) (e : Enemy.t) (s : Game) :
  OnScreen s → OnScreen (resolveContact i e s).
Proof.
  destruct (resolveContact_fields i e s) as (_ & _ & _ & _ & _ & _ & _ & Hbs & _).
  unfold OnScreen. now rewrite Hbs.
Qed.

Lemma Tidy_scanContacts (n : nat) (s s' : Game) :
  scanContacts n s = Ok s' → Tidy s ∧ OnScreen s → Tidy s' ∧ OnScreen s'.
Proof.
  revert s. induction n as [|i IH]; intros s.
  - cbn. intros H. apply Ok_inj in H. now subst s'.
  - cbn [scanContacts]. destruct (enemies s !! i) as [e|]; [|discriminate].
    destruct (enemyHitsPlayer e (player s)); [|apply IH].
    intros H [Ht Ho]. apply (IH _ H).
    split; [now apply Tidy_resolveContact | now apply OnScreen_resolveContact].
Qed.

Lemma Tidy_checkCollisions (s s' : Game) :
  checkCollisions s = Ok s' → (0 <= combo s)%Z →
  Tidy s ∧ OnScreen s → Tidy s' ∧ OnScreen s'.
Proof.
  unfold checkCollisions.
  destruct (bulletsVsEnemies s) as [s1|] eqn:E; [|discriminate].
  cbn [mbind Result_bind]. intros H Hc [Ht Ho].
  apply (Tidy_scanContacts _ _ _ H).
  split; [exact (Tidy_bulletsVsEnemies _ _ E Hc Ht) | exact (OnScreen_bulletsVsEnemies _ _ E Ho)].
Qed.

Lemma Tidy_normalFrame (currentTime dt : Q) (s s' : Game) :
  normalFrame currentTime dt s = Ok s' → Inv s → Tidy s → Tidy s' ∧ OnScreen s'.
Proof.
  intros H Hi Ht. apply normalFrame_steps in H as (s1 & s2 & H1 & H2 & H3).
  apply Inv_decayShake, (Inv_updateComboTimer dt), (Inv_Player_update _ _ _ H1) in Hi.
  apply (Inv_shooting (currentTime / 1000)), (Inv_updateBullets dt) in Hi.
  assert (Ht1 : Tidy (decayShake s)) by now destruct s.
  apply (Tidy_updateComboTimer dt), (Tidy_Player_update _ _ _ H1) in Ht1.
  apply (Tidy_shooting (currentTime / 1000)), (Tidy_updateBullets dt) in Ht1.
  pose proof (OnScreen_updateBullets dt (shooting (currentTime / 1000) s1)) as Ho.
  assert (H5 : enemiesPerWave (updateBullets dt (shooting (currentTime / 1000) s1)) = 5%Z)
    by now destruct Hi as (_ & _ & _ & _ & -> & _).
  assert (Hb : waveBlocked (spawning dt (updateBullets dt (shooting (currentTime / 1000) s1))))
    by (apply spawning_waveBlocked; rewrite H5; lia).
  apply (Tidy_spawning dt _ H5) in Ht1. apply (OnScreen_spawning dt) in Ho.
  apply (Inv_spawning dt) in Hi.
  apply updateEnemies_frame in H2 as (es & -> & Hl).
  apply (waveBlocked_set_enemies es _ Hl), (waveBlocked_updateParticles dt) in Hb.
  apply (Tidy_set_enemies es _ Hl), (Tidy_updateParticles dt), (Tidy_waveProgress dt _ Hb)
    in Ht1.
  assert (Ho2 : OnScreen (updateParticles dt (set_enemies es
                  (spawning dt (updateBullets dt (shooting (currentTime / 1000) s1))))))
    by exact Ho.
  apply (OnScreen_waveProgress dt _ Hb) in Ho2.
  apply (Inv_set_enemies es), (Inv_updateParticles dt), (Inv_waveProgress dt _ Hb) in Hi.
  apply (Tidy_checkCollisions _ _ H3); [now destruct Hi as (_ & _ & Hc & _) | now split].
Qed.

Lemma Tidy_hitstopFrame (dt : Q) (s : Game) :
  Tidy s ∧ OnScreen s → Tidy (hitstopFrame dt s) ∧ OnScreen (hitstopFrame dt s).
Proof.
  intros [(Hg & Hs & He & Hc & Hw) Ho].
  pose proof (fadeGhosts_length dt (Player.ghostAfterimages (updateRecoil dt (player s)))) as Hf.
  assert (Hr : Player.ghostAfterimages (updateRecoil dt (player s))
               = Player.ghostAfterimages (player s)).
  { unfold updateRecoil. destruct (_ >? 0); [|reflexivity].
    destruct (_ <? 0); now destruct (player s). }
  rewrite Hr in Hf at 2.
  unfold hitstopFrame, decayShake, Tidy, OnScreen. fields. rewrite length_map.
  repeat split; auto. lia.
Qed.

Lemma Tidy_gameLoop (currentTime : Q) (s s' : Game) :
  gameLoop currentTime s = Ok s' → Inv s → Tidy s ∧ OnScreen s → Tidy s' ∧ OnScreen s'.
Proof.
  unfold gameLoop. intros H Hi Ht. apply (Inv_set_lastTime currentTime) in Hi.
  assert (Ht' : Tidy (set_lastTime currentTime s) ∧ OnScreen (set_lastTime currentTime s))
    by now destruct s.
  destruct (isPlaying _).
  - destruct (hitstop _ >? 0).
    + apply Ok_inj in H. subst s'. now apply Tidy_hitstopFrame.
    + exact (Tidy_normalFrame _ _ _ _ H Hi (proj1 Ht')).
  - apply Ok_inj in H. now subst s'.
Qed.

Lemma Tidy_restart (s : Game) : Tidy (restart s) ∧ OnScreen (restart s).
Proof.
  unfold Tidy, OnScreen, restart, new_Player. fields.
  repeat split; cbn; auto; try lia.
Qed.

Lemma Tidy_onKeyDown (key : string) (s : Game) :
  Tidy s ∧ OnScreen s → Tidy (onKeyDown key s) ∧ OnScreen (onKeyDown key s).
Proof.
  intros Hs. unfold onKeyDown.
  set (s1 := set_keys _ s).
  assert (H1 : Tidy s1 ∧ OnScreen s1) by (subst s1; now destruct s). clearbody s1.
  set (s2 := if (_ || _ || _) then _ else s1).
  assert (H2 : Tidy s2 ∧ OnScreen s2)
    by (subst s2; destruct (_ || _ || _); [now destruct s1 | assumption]).
  clearbody s2.
  set (s3 := if (_ || _) then restart s2 else s2).
  assert (H3 : Tidy s3 ∧ OnScreen s3)
    by (subst s3; destruct (_ || _); [apply Tidy_restart | assumption]).
  clearbody s3.
  set (s4 := if (_ || _) then _ else s3).
  assert (H4 : Tidy s4 ∧ OnScreen s4)
    by (subst s4; destruct (_ || _); [now destruct s3 | assumption]).
  clearbody s4.
  destruct (_ || _); [now destruct s4 | assumption].
Qed.

Lemma Tidy_handle (ev : Event) (s s' : Game) :
  handle ev s = Ok s' → Inv s → Tidy s ∧ OnScreen s → Tidy s' ∧ OnScreen s'.
Proof.
  destruct ev; cbn [handle]; try (intros H; apply Ok_inj in H; subst s'; intros _).
  - apply Tidy_onKeyDown.
  - now destruct s.
  - now destruct s.
  - unfold onMouseDown. destruct (_ =? _)%Z; [now destruct s | auto].
  - unfold onMouseUp. destruct (_ =? _)%Z; [now destruct s | auto].
  - apply Tidy_gameLoop.
Qed.

Lemma Tidy_run (evs : list Event) (s s' : Game) :
  run evs s = Ok s' → Inv s → Tidy s ∧ OnScreen s → Tidy s' ∧ OnScreen s'.
Proof.
  revert s. induction evs as [|ev evs IH]; intros s.
  - cbn. intros H. apply Ok_inj in H. now subst s'.
  - cbn [run]. destruct (handle ev s) as [s1|] eqn:E; [|discriminate].
    cbn [mbind Result_bind]. intros H Hi Ht.
    apply (IH _ H); [exact (Inv_handle _ _ _ E Hi) | exact (Tidy_handle _ _ _ E Hi Ht)].
Qed.

Lemma Tidy_initial : Tidy initial ∧ OnScreen initial.
Proof.
  unfold Tidy, OnScreen, initial, new_Player. fields. repeat split; cbn; auto; lia.
Qed.

(** ** Properties of every reachable state *)

(** X5: the dash trail never holds more than five afterimages. *)
Theorem afterimages_bounded (evs : list Event) (s : Game) :
  run evs initial = Ok s →
  (length (Player.ghostAfterimages (player s)) ≤ 5)%nat.
Proof.
  intros H. now destruct (Tidy_run _ _ _ H Inv_initial Tidy_initial) as [(Hg & _) _].
Qed.

(** X6: there are never more than five enemies. *)
Theorem enemies_capped (evs : list Event) (s : Game) :
  run evs initial = Ok s → (length (enemies s) ≤ 5)%nat.
Proof.
  intros H.
  now destruct (Tidy_run _ _ _ H Inv_initial Tidy_initial) as [(_ & _ & He & _) _].
Qed.

(** X7: the score is never negative, and a combo is only there while its
    timer is running. *)
Theorem counters_sane (evs : list Event) (s : Game) :
  run evs initial = Ok s →
  (0 <= score s)%Z ∧ (comboTimer s <= 0 → combo s = 0%Z).
Proof.
  intros H.
  now destruct (Tidy_run _ _ _ H Inv_initial Tidy_initial) as [(_ & Hs & _ & Hc & _) _].
Qed.

(** X9: the wave never advances: in every reachable state the wave is 1, the
    target population 5, the spawn interval 2, and no banner is running. *)
Theorem wave_never_advances (evs : list Event) (s : Game) :
  run evs initial = Ok s →
  wave s = 1%Z ∧ enemiesPerWave s = 5%Z ∧ enemySpawnRate s = 2
  ∧ waveBannerTime s = 0.
Proof.
  intros H.
  destruct (Inv_run _ _ _ H Inv_initial) as (_ & _ & _ & Hw & He & Hr).
  destruct (Tidy_run _ _ _ H Inv_initial Tidy_initial) as [(_ & _ & _ & _ & Hb) _].
  auto.
Qed.

(** X10: the two collision loops splice while they iterate and never read an
    element that is not there. *)
Theorem checkCollisions_never_faults (s : Game) : ∃ s', checkCollisions s = Ok s'.
Proof. apply checkCollisions_total. Qed.

(** X11: no sequence of events leads to a division by zero or to a read on
    [undefined], provided the square root of a positive number is not
    zero. *)
Theorem run_never_faults (evs : list Event) (s : Game) :
  (∀ q, 0 < q → ¬ Math_sqrt host q == 0) →
  ∃ s', run evs s = Ok s'.
Proof. intros H. now apply run_total. Qed.

(** ** Player position *)

Lemma clamp_bounds (lo hi x : Q) :
  lo <= Qmax lo (Qmin hi x) ∧ (lo <= hi → Qmax lo (Qmin hi x) <= hi).
Proof.
  split; [apply Q.le_max_l|].
  intros H. apply Q.max_lub; [assumption | apply Q.le_min_l].
Qed.

(** X12: after [Player.update] the player is at least its radius away from
    the left and top edges, and from the right and bottom edges too as long
    as the arena is at least two radii wide and high. *)
Theorem player_in_bounds (dt : Q) (s s' : Game) :
  Player_update dt s = Ok s' →
  let p := player s' in
  let r := Player.radius (player s) in
  Player.radius p = r
  ∧ r <= Player.x p ∧ r <= Player.y p
  ∧ (r <= canvas_width host / dpr host - r →
       Player.x p <= canvas_width host / dpr host - r)
  ∧ (r <= canvas_height host / dpr host - r →
       Player.y p <= canvas_height host / dpr host - r).
Proof.
  unfold Player_update.
  set (s0 := set_player (updateDashCooldown dt (player s)) s).
  assert (H0 : Player.radius (player s0) = Player.radius (player s))
    by (subst s0; fields; unfold updateDashCooldown; destruct (_ >? 0);
        now destruct (player s)).
  clearbody s0.
  destruct (dashActivation s0) as [s1|] eqn:E1; [|discriminate].
  cbn [mbind Result_bind].
  destruct (normalMovement _ _ _) as [p3|] eqn:E3; [|discriminate].
  cbn [mbind Result_bind]. intros H. apply Ok_inj in H. subst s'. cbn zeta. fields.
  assert (H1 : Player.radius (player s1) = Player.radius (player s0)).
  { revert E1. unfold dashActivation. destruct (dashRequested s0).
    - destruct (heldDirection (keys s0)) as [dx dy].
      set (dir := if Qneb dx 0 || Qneb dy 0 then _ else _).
      destruct dir as [d|]; [|discriminate].
      cbn -[spawnParticles addShake playSound]. intros H. apply Ok_inj in H. subst s1.
      cosmetics. fields. reflexivity.
    - intros H. apply Ok_inj in H. now subst s1. }
  assert (H3 : Player.radius p3 = Player.radius (player s1)).
  { revert E3. unfold normalMovement.
    assert (Hr : Player.radius (updateRecoil dt (dashMovement dt (player s1)))
                 = Player.radius (player s1)).
    { unfold updateRecoil, dashMovement.
      destruct (Player.dashActive (player s1)).
      - destruct (5 <? _)%nat; destruct (_ <=? 0); fields;
          (destruct (_ >? 0); [|reflexivity]); fields; destruct (_ <? 0); reflexivity.
      - fields. destruct (_ >? 0); [|reflexivity]. fields. destruct (_ <? 0); reflexivity. }
    revert Hr. generalize (updateRecoil dt (dashMovement dt (player s1))). intros p2 Hr.
    destruct (negb (Player.dashActive p2)); [|intros H; apply Ok_inj in H; now subst p3].
    destruct (heldDirection (keys s1)) as [dx dy].
    destruct (Qneb dx 0 || Qneb dy 0); [|intros H; apply Ok_inj in H; now subst p3].
    destruct (divide dx _) as [nx|]; [|discriminate].
    destruct (divide dy _) as [ny|]; [|discriminate].
    cbn. intros H. apply Ok_inj in H. subst p3. fields. exact Hr. }
  rewrite <- H0, <- H1, <- H3. clear.
  set (q := aimAtMouse (mouse s1) (keepInBounds p3)).
  assert (Hq : updateInvulnerability dt q = q
               ∨ updateInvulnerability dt q
                 = Player.set_invulnerable (Player.invulnerable q - dt) q)
    by (unfold updateInvulnerability; destruct (_ && _); auto).
  assert (Hx : Player.x (updateInvulnerability dt q) = Player.x (keepInBounds p3)
               ∧ Player.y (updateInvulnerability dt q) = Player.y (keepInBounds p3)
               ∧ Player.radius (updateInvulnerability dt q) = Player.radius p3)
    by (destruct Hq as [-> | ->]; subst q; now destruct p3).
  destruct Hx as (-> & -> & ->). unfold keepInBounds. fields.
  destruct (clamp_bounds (Player.radius p3)
              (canvas_width host / dpr host - Player.radius p3) (Player.x p3)) as [Hx1 Hx2].
  destruct (clamp_bounds (Player.radius p3)
              (canvas_height host / dpr host - Player.radius p3) (Player.y p3)) as [Hy1 Hy2].
  repeat split; assumption.
Qed.

(** ** Keys, pause, restart *)

(** X13: a key that goes down is held under the name [toLowerCase] gives
    it, is no longer held once it has gone up, and no other entry of [keys]
    changes; this whatever the browser's [toLowerCase] does to the key. *)
Theorem key_round_trip (key : string) (s : Game) :
  keyHeld (keys (onKeyDown key s)) (toLowerCase key) = true
  ∧ keyHeld (keys (onKeyUp key (onKeyDown key s))) (toLowerCase key) = false
  ∧ (∀ k, k ≠ toLowerCase key →
       keyHeld (keys (onKeyDown key s)) k = keyHeld (keys s) k
       ∧ keyHeld (keys (onKeyUp key s)) k = keyHeld (keys s) k).
Proof.
  assert (Hk : keys (onKeyDown key s) = <[toLowerCase key := true]> (keys s)).
  { unfold onKeyDown.
    set (s1 := set_keys _ s).
    assert (H1 : keys s1 = <[toLowerCase key := true]> (keys s)) by reflexivity.
    clearbody s1.
    set (s2 := if (_ || _ || _) then _ else s1).
    assert (H2 : keys s2 = keys s1) by (subst s2; destruct (_ || _ || _); reflexivity).
    clearbody s2.
    set (s3 := if (_ || _) then restart s2 else s2).
    assert (H3 : keys s3 = keys s2) by (subst s3; destruct (_ || _); reflexivity).
    clearbody s3.
    set (s4 := if (_ || _) then _ else s3).
    assert (H4 : keys s4 = keys s3) by (subst s4; destruct (_ || _); reflexivity).
    clearbody s4.
    destruct (_ || _); fields; congruence. }
  unfold onKeyUp. fields. rewrite Hk. unfold keyHeld.
  rewrite !lookup_insert_eq. repeat split.
  - now rewrite lookup_insert_ne by auto.
  - now rewrite lookup_insert_ne by auto.
Qed.

(** X14: pausing and resuming sets the game state to playing whatever it was
    before: after a game over, two presses of the pause key put the game
    back in play with the player as it died, and the next frame is a normal
    one. *)
Theorem pause_twice_resumes (s : Game) :
  paused s = false →
  let s2 := onKeyDown "p" (onKeyDown "p" s) in
  paused s2 = false ∧ gameState s2 = Playing ∧ isPlaying s2 = true
  ∧ player s2 = player s ∧ score s2 = score s
  ∧ enemies s2 = enemies s ∧ bullets s2 = bullets s.
Proof.
  intros Hp. destruct s. cbn in Hp. subst. cbn. repeat split.
Qed.

(** X15: [restart] twice is [restart] once, and [restart] keeps the mute and
    debug switches, the keys and the pointer as they are. *)
Theorem restart_idempotent (s : Game) :
  restart (restart s) = restart s
  ∧ muted (restart s) = muted s ∧ debug (restart s) = debug s
  ∧ keys (restart s) = keys s ∧ mouse (restart s) = mouse s.
Proof.
  split; [vm_compute; reflexivity|]. repeat split.
Qed.

Lemma last_nonempty_indep {A : Type} (l : list A) (a d d' : A) :
  List.last (a :: l) d = List.last (a :: l) d'.
Proof.
  revert a. induction l as [|b l IH]; intros a; [reflexivity|].
  change (List.last (a :: b :: l) d) with (List.last (b :: l) d).
  change (List.last (a :: b :: l) d') with (List.last (b :: l) d').
  apply IH.
Qed.

(** X16: while the game is paused or over, frames change nothing but
    [lastTime]. *)
Theorem paused_frames_freeze (ts : list Q) (s : Game) :
  isPlaying s = false →
  run (List.map Frame ts) s = Ok (set_lastTime (List.last ts (lastTime s)) s).
Proof.
  revert s. induction ts as [|t ts IH]; intros s Hp.
  - cbn. now destruct s.
  - cbn [List.map run handle]. unfold gameLoop.
    replace (isPlaying (set_lastTime t s)) with false by (now destruct s).
    cbn [mbind Result_bind].
    rewrite IH by (now destruct s).
    f_equal. destruct ts as [|t' ts']; [now destruct s|].
    change (lastTime (set_lastTime t s)) with t.
    replace (List.last (t :: t' :: ts') (lastTime s))
      with (List.last (t' :: ts') (lastTime s)) by reflexivity.
    rewrite (last_nonempty_indep ts' t' t (lastTime s)).
    now destruct s.
Qed.

(** ** Spawning *)

Lemma scaled_in_range (r size k : Q) :
  0 <= r → r < 1 → 0 < size → 0 < k →
  0 <= r * size / k ∧ r * size / k <= size / k.
Proof.
  intros H0 H1 Hs Hk. unfold Qdiv.
  assert (Hi : 0 < / k) by now apply Qinv_lt_0_compat.
  assert (Hp : 0 < size * / k) by nra.
  split.
  - rewrite <- Qmult_assoc. nra.
  - rewrite <- Qmult_assoc. nra.
Qed.

(** X20: with [Math.random] in [0, 1) and a canvas of positive size, a new
    enemy has a radius between 12 and 20, a speed between 80 and 120, one
    hit point, and sits 50 units outside one of the four edges, somewhere
    along that edge; its construction draws four random numbers.  The upper
    bounds are not strict, so that they survive the rounding of a sum. *)
Theorem new_Enemy_on_edge (s : Game) :
  (∀ n, 0 <= Math_random host n ∧ Math_random host n < 1) →
  0 < dpr host → 0 < canvas_width host → 0 < canvas_height host →
  let e := (new_Enemy s).1 in
  let W := canvas_width host / dpr host in
  let H := canvas_height host / dpr host in
  12 <= Enemy.radius e ∧ Enemy.radius e <= 20
  ∧ 80 <= Enemy.speed e ∧ Enemy.speed e <= 120
  ∧ Enemy.hp e = 1%Z ∧ Enemy.hitFlash e = 0
  ∧ ((Enemy.x e == - (50) ∧ 0 <= Enemy.y e ∧ Enemy.y e <= H)
     ∨ (Enemy.x e == W + 50 ∧ 0 <= Enemy.y e ∧ Enemy.y e <= H)
     ∨ (Enemy.y e == - (50) ∧ 0 <= Enemy.x e ∧ Enemy.x e <= W)
     ∨ (Enemy.y e == H + 50 ∧ 0 <= Enemy.x e ∧ Enemy.x e <= W))
  ∧ randomCalls (new_Enemy s).2 = (randomCalls s + 4)%nat.
Proof.
  intros Hrand Hd Hw Hh. cbn zeta.
  unfold new_Enemy, random. destruct s.
  cbn -[Qplus Qmult Qdiv Qopp Qfloor Z.eqb Qle Qlt Qeq].
  set (n := randomCalls0).
  destruct (Hrand (S n)) as [A0 A1].
  destruct (Hrand (S (S n))) as [B0 B1].
  destruct (Hrand (S (S (S n)))) as [C0 C1].
  destruct (scaled_in_range _ _ _ A0 A1 Hw Hd) as [Wx0 Wx1].
  destruct (scaled_in_range _ _ _ A0 A1 Hh Hd) as [Hy0 Hy1].
  assert (Hedge :
    ∀ side : Z,
      let xy := if (side =? 0)%Z
                then (- (50), Math_random host (S n) * canvas_height host / dpr host)
                else if (side =? 1)%Z
                then (canvas_width host / dpr host + 50,
                      Math_random host (S n) * canvas_height host / dpr host)
                else if (side =? 2)%Z
                then (Math_random host (S n) * canvas_width host / dpr host, - (50))
                else (Math_random host (S n) * canvas_width host / dpr host,
                      canvas_height host / dpr host + 50) in
      (xy.1 == - (50) ∧ 0 <= xy.2 ∧ xy.2 <= canvas_height host / dpr host)
      ∨ (xy.1 == canvas_width host / dpr host + 50 ∧ 0 <= xy.2
         ∧ xy.2 <= canvas_height host / dpr host)
      ∨ (xy.2 == - (50) ∧ 0 <= xy.1 ∧ xy.1 <= canvas_width host / dpr host)
      ∨ (xy.2 == canvas_height host / dpr host + 50 ∧ 0 <= xy.1
         ∧ xy.1 <= canvas_width host / dpr host)).
  { intros side. cbn zeta.
    destruct (side =? 0)%Z; [left; cbn [fst snd]; repeat split; auto; reflexivity|].
    destruct (side =? 1)%Z; [right; left; cbn [fst snd]; repeat split; auto; reflexivity|].
    destruct (side =? 2)%Z;
      [right; right; left | right; right; right]; cbn [fst snd];
      repeat split; auto; reflexivity. }
  specialize (Hedge (Qfloor (Math_random host n * 4))). cbn zeta in Hedge.
  destruct (if (Qfloor (Math_random host n * 4) =? 0)%Z then _ else _) as [x y].
  cbn [fst snd Enemy.x Enemy.y Enemy.radius Enemy.speed Enemy.hp Enemy.hitFlash
       randomCalls set_randomCalls] in *.
  repeat split; try lra; try assumption. lia.
Qed.

End Simulation.

(** * A host to run the model on *)

(** [Math.sqrt] to six decimals, rounded up; exact on zero. *)
Definition sqrt_up (q : Q) : Q :=
  Z.sqrt_up (Qnum q * Zpos (Qden q) * 10 ^ 12) # (Qden q * 10 ^ 6).

(** Low-order approximations of the trigonometric functions, exact at the
    angle zero. *)
Definition cos_approx (a : Q) : Q := 1 - a * a / 2.
Definition sin_approx (a : Q) : Q := a - a * a * a / 6.
Definition atan2_approx (dy dx : Q) : Q :=
  if 0 <? dx then dy / dx
  else if dx <? 0 then (if 0 <=? dy then 3.1416 + dy / dx else - 3.1416 + dy / dx)
  else if 0 <? dy then 1.5708
  else if dy <? 0 then - 1.5708
  else 0.

(** A fixed sequence in [0, 1) standing for [Math.random]. *)
Definition random_table (n : nat) : Q :=
  inject_Z ((37 * Z.of_nat n + 11) mod 100) / 100.

(** The lower-case conversion on the letters A to Z, which is what
    [toLowerCase] does to the key names of a Latin keyboard. *)
Definition lower_ascii (c : ascii) : ascii :=
  let n := nat_of_ascii c in
  if (65 <=? n)%nat && (n <=? 90)%nat then ascii_of_nat (n + 32) else c.

Fixpoint lower_latin (k : string) : string :=
  match k with
  | EmptyString => EmptyString
  | String c rest => String (lower_ascii c) (lower_latin rest)
  end.

(** An 800 by 600 canvas at pixel ratio 1, with sound. *)
Definition sampleHost : Host :=
  {| Math_sqrt := sqrt_up;
     Math_cos := cos_approx;
     Math_sin := sin_approx;
     Math_atan2 := atan2_approx;
     Math_random := random_table;
     canvas_width := 800;
     canvas_height := 600;
     dpr := 1;
     audioContext := true;
     performance_now := 0;
     String_toLowerCase := lower_latin |}.

(** The state of a result, [d] when it is a fault. *)
Definition stateOr (d : Game) (r : Result Game) : Game :=
  match r with
  | Ok s => s
  | Err _ => d
  end.

Global Instance Result_fmap : FMap Result := fun A B f r =>
  match r with
  | Ok a => Ok (f a)
  | Err e => Err e
  end.


Lemma sqrt_up_nonzero (q : Q) : 0 < q → ¬ sqrt_up q == 0.
Proof.
  unfold sqrt_up, Qlt, Qeq. cbn [Qnum Qden]. rewrite !Z.mul_0_l, !Z.mul_1_r.
  intros Hq Hz.
  assert (Hpos : (0 < Qnum q * Z.pos (Qden q) * 10 ^ 12)%Z) by nia.
  apply Z.sqrt_up_pos in Hpos. lia.
Qed.

Lemma sqrt_up_zero (q : Q) : q == 0 → sqrt_up q <= 0.
Proof.
  unfold sqrt_up, Qle, Qeq. cbn [Qnum Qden]. rewrite !Z.mul_0_l, !Z.mul_1_r.
  intros Hq. rewrite Hq, !Z.mul_0_l. reflexivity.
Qed.

(** Close a comparison between numerals. *)
Ltac numerals := vm_compute; first [reflexivity | discriminate | easy].

(** * The statements on concrete inputs *)

(** A bullet at rest and an enemy of radius 12, for collision scenes. *)
Definition mkBullet (x y : Q) : Bullet.t := Bullet.new x y 0.
Definition mkEnemy (x y : Q) : Enemy.t :=
  {| Enemy.x := x; Enemy.y := y; Enemy.radius := 12; Enemy.speed := 100;
     Enemy.hp := 1; Enemy.hitFlash := 0 |}.

(** One bullet on top of two enemies. *)
Definition oneBulletTwoEnemies : Game :=
  set_bullets [mkBullet 100 100]
    (set_enemies [mkEnemy 100 100; mkEnemy 101 100] (initial sampleHost)).

(** Two bullets, two enemies on a line: the first bullet overlaps both
    enemies, the second one only the first enemy. *)
Definition crossFire : Game :=
  set_bullets [mkBullet 15 0; mkBullet (-10) 0]
    (set_enemies [mkEnemy 0 0; mkEnemy 30 0] (initial sampleHost)).

(** The player hit 0.2 s ago, with 0.5 s of invulnerability left. *)
Definition shielded : Game :=
  set_player (Player.set_invulnerable 0.5 (new_Player sampleHost)) (initial sampleHost).

(** The middle of a hit-stop: 0.05 s of it left, the screen shaking, one
    enemy flashing and one not, the muzzle recoiling, and two afterimages of
    a dash, the second one about to vanish. *)
Definition mkGhost (x y alpha age : Q) : Ghost.t :=
  {| Ghost.x := x; Ghost.y := y; Ghost.angle := 0; Ghost.alpha := alpha; Ghost.age := age |}.
Definition frozen : Game :=
  set_hitstop 0.05
    (set_screenShake {| vx := 3; vy := - 2 |}
       (set_enemies [Enemy.set_hitFlash 0.1 (mkEnemy 100 100); mkEnemy 300 200]
          (set_player
             (Player.set_recoilOffset 3
                (Player.set_ghostAfterimages
                   [mkGhost 390 300 0.6 0; mkGhost 380 300 0.02 0.29]
                   (new_Player sampleHost)))
             (initial sampleHost)))).

(** The initial state with Shift held, and the two updates of a dash. *)
Definition shiftHeld : Game := onKeyDown sampleHost "Shift" (initial sampleHost).
Definition dashStarted : Game :=
  stateOr shiftHeld (Player_update sampleHost 0.1 shiftHeld).
Definition dashEnded : Game :=
  stateOr dashStarted (Player_update sampleHost 0.1 dashStarted).

(** A short session: aim, shoot, two frames. *)
Definition session : list Event :=
  [MouseMove 600 300 0 0; MouseDown 0; Frame 16; KeyDown "w"; Frame 32; MouseUp 0].

Lemma takeDamage_protected_witness :
  0 < Player.invulnerable (player shielded)
  ∧ Player_takeDamage sampleHost 10 shielded = (false, shielded).
Proof.
  split; [numerals|].
  apply (takeDamage_protected sampleHost 10 shielded). left. numerals.
Defined.

Lemma hitstop_frame_freezes_witness :
  ∃ s', gameLoop sampleHost 16 frozen = Ok s'
        ∧ hitstop s' == 0.034
        ∧ vx (screenShake s') == 2.76 ∧ vy (screenShake s') == - 1.84
        ∧ (∃ e, enemies s' !! 0%nat = Some e ∧ Enemy.hitFlash e == 0.084
                ∧ Enemy.x e = 100 ∧ Enemy.hp e = 1%Z)
        ∧ enemies s' !! 1%nat = Some (mkEnemy 300 200)
        ∧ Player.recoilOffset (player s') == 2.68
        ∧ (∃ ghost, Player.ghostAfterimages (player s') = [ghost]
                    ∧ Ghost.x ghost = 390 ∧ Ghost.alpha ghost == 0.568
                    ∧ Ghost.age ghost == 0.016)
        ∧ Player.hp (player s') = 100 ∧ Player.x (player s') = Player.x (player frozen)
        ∧ score s' = 0%Z ∧ bullets s' = [].
Proof.
  assert (H1 : isPlaying frozen = true) by numerals.
  assert (H2 : 0 < hitstop frozen) by numerals.
  destruct (hitstop_frame_freezes sampleHost 16 frozen H1 H2)
    as (s' & H & Hh & Hshake & Hb & _ & _ & He & Hg & Hr & Hp & Hs & _).
  exists s'.
  split; [exact H|].
  split; [rewrite Hh; numerals|].
  split; [rewrite Hshake; numerals|].
  split; [rewrite Hshake; numerals|].
  split.
  { eexists. split; [apply (He 0%nat); reflexivity|]. numerals. }
  split; [rewrite (He 1%nat (mkEnemy 300 200)) by reflexivity; numerals|].
  split; [rewrite Hr; numerals|].
  split.
  { rewrite Hg. eexists. split; [vm_compute; reflexivity|]. numerals. }
  assert (Hhp : Player.hp (player s') = Player.hp (player frozen)
                ∧ Player.x (player s') = Player.x (player frozen)).
  { rewrite <- Hp. split; reflexivity. }
  destruct Hhp as [Hhp Hx].
  split; [rewrite Hhp; reflexivity|].
  split; [exact Hx|].
  split; [rewrite Hs; reflexivity | rewrite Hb; reflexivity].
Defined.

Lemma normalisation_guarded_witness :
  (∀ dt s, ∃ s', Player_update sampleHost dt s = Ok s')
  ∧ (∀ dt p e, ∃ e', Enemy_update sampleHost dt p e = Ok e').
Proof.
  destruct (normalisation_guarded sampleHost sqrt_up_nonzero sqrt_up_zero)
    as (Hp & _ & He & _).
  split; assumption.
Defined.

Lemma dash_keeps_invulnerability_witness :
  Player.invulnerable (player dashStarted) = 0.2
  ∧ Player.invulnerable (player dashEnded) = 0.2 - 0.1
  ∧ Player_takeDamage sampleHost 10 dashEnded = (false, dashEnded).
Proof.
  assert (A1 : Player.dashActive (player shiftHeld) = false) by numerals.
  assert (A2 : Player_update sampleHost 0.1 shiftHeld = Ok dashStarted)
    by (vm_compute; reflexivity).
  assert (A3 : Player.dashActive (player dashStarted) = true) by numerals.
  assert (A4 : dashing sampleHost dashStarted [] dashStarted) by constructor.
  assert (A5 : Player_update sampleHost 0.1 dashStarted = Ok dashEnded)
    by (vm_compute; reflexivity).
  assert (A6 : Player.dashActive (player dashEnded) = false) by numerals.
  destruct (dash_keeps_invulnerability sampleHost
              shiftHeld dashStarted dashStarted dashEnded 0.1 0.1 [] 10
              A1 A2 A3 A4 A5 A6)
    as (H1 & _ & H3 & H4).
  split; [rewrite H1; reflexivity|].
  split; [rewrite H3; reflexivity | apply H4; numerals].
Defined.

Lemma first_match_removed_witness :
  (bullets <$> bulletStep sampleHost 0 oneBulletTwoEnemies) = Ok []
  ∧ (enemies <$> bulletStep sampleHost 0 oneBulletTwoEnemies) = Ok [mkEnemy 100 100]
  ∧ (combo <$> bulletStep sampleHost 0 oneBulletTwoEnemies) = Ok 1%Z
  ∧ (score <$> bulletStep sampleHost 0 oneBulletTwoEnemies) = Ok 10%Z.
Proof.
  assert (A1 : bullets oneBulletTwoEnemies !! 0%nat = Some (mkBullet 100 100))
    by reflexivity.
  assert (A2 : enemies oneBulletTwoEnemies !! 1%nat = Some (mkEnemy 101 100))
    by reflexivity.
  assert (A3 : bulletHitsEnemy sampleHost (mkBullet 100 100) (mkEnemy 101 100) = true)
    by numerals.
  assert (A4 : ∀ j' e', (1 < j')%nat → enemies oneBulletTwoEnemies !! j' = Some e' →
                 bulletHitsEnemy sampleHost (mkBullet 100 100) e' = false)
    by (intros [|[|j']] e' Hj; [lia | lia | discriminate]).
  destruct (first_match_removed sampleHost oneBulletTwoEnemies 0 1
              (mkBullet 100 100) (mkEnemy 101 100) A1 A2 A3 A4)
    as (s' & -> & Hb & He & Hc & _ & Hs).
  cbn [fmap Result_fmap]. rewrite Hb, He, Hs, Hc. repeat split.
Defined.

(** C1, as stated, fails: the bullet overlaps both enemies, the pass takes
    the bullet and the second enemy, and the first enemy is still there. *)
Lemma overlapping_enemy_survives :
  bulletHitsEnemy sampleHost (mkBullet 100 100) (mkEnemy 100 100) = true
  ∧ (bullets <$> bulletsVsEnemies sampleHost oneBulletTwoEnemies) = Ok []
  ∧ (enemies <$> bulletsVsEnemies sampleHost oneBulletTwoEnemies)
    = Ok [mkEnemy 100 100].
Proof. vm_compute. repeat split. Qed.

(** C7, as stated, fails: on [crossFire] the code resolves two pairs (combo
    2, score 30), first-match in insertion order resolves one (combo 1,
    score 10). *)
Lemma insertion_order_differs :
  (combo <$> bulletsVsEnemies sampleHost crossFire) = Ok 2%Z
  ∧ (score <$> bulletsVsEnemies sampleHost crossFire) = Ok 30%Z
  ∧ combo (pass_insertionOrder sampleHost crossFire) = 1%Z
  ∧ score (pass_insertionOrder sampleHost crossFire) = 10%Z.
Proof. vm_compute. repeat split. Qed.

Lemma hp_and_combo_bounded_witness :
  let s := stateOr (initial sampleHost) (run sampleHost session (initial sampleHost)) in
  0 <= Player.hp (player s) ∧ Player.hp (player s) <= Player.maxHp (player s)
  ∧ (0 <= combo s)%Z.
Proof.
  apply (hp_and_combo_bounded sampleHost session). vm_compute. reflexivity.
Defined.

Lemma wave_change_preempted_witness :
  waveBannerTime (initial sampleHost) <= 0
  ∧ enemies (initial sampleHost) = []
  ∧ enemySpawnTimer (initial sampleHost) <= 0
  ∧ (wave <$> gameLoop sampleHost 16 (initial sampleHost)) = Ok 1%Z.
Proof.
  assert (A1 : reachable sampleHost (initial sampleHost)) by now exists [].
  assert (A2 : isPlaying (initial sampleHost) = true) by numerals.
  assert (A3 : hitstop (initial sampleHost) <= 0) by numerals.
  assert (A4 : waveBannerTime (initial sampleHost) <= 0) by numerals.
  assert (A5 : enemies (initial sampleHost) = []) by reflexivity.
  assert (A6 : enemySpawnTimer (initial sampleHost) <= 0) by numerals.
  destruct (wave_change_preempted sampleHost 16 (initial sampleHost)
              sqrt_up_nonzero A1 A2 A3 A4 A5 A6)
    as (s' & -> & Hw & _).
  repeat split; try assumption.
  cbn [fmap Result_fmap]. now rewrite Hw.
Defined.

Lemma restart_resets_witness :
  let s := stateOr (initial sampleHost) (run sampleHost session (initial sampleHost)) in
  score (restart sampleHost s) = 0%Z
  ∧ enemySpawnRate (restart sampleHost s) = 2
  ∧ enemies (restart sampleHost s) = [].
Proof.
  intros s.
  assert (A1 : run sampleHost session (initial sampleHost) = Ok s)
    by (vm_compute; reflexivity).
  destruct (restart_resets sampleHost session s A1)
    as (H1 & _ & _ & H4 & _ & _ & _ & _ & _ & H10 & _).
  split; [exact H1|]. split; [exact H10 | exact H4].
Defined.

Lemma random_table_range (n : nat) : 0 <= random_table n ∧ random_table n < 1.
Proof.
  unfold random_table.
  pose proof (Z.mod_pos_bound (37 * Z.of_nat n + 11) 100 ltac:(lia)) as [H0 H1].
  set (z := ((37 * Z.of_nat n + 11) mod 100)%Z) in *.
  unfold Qdiv, Qle, Qlt. cbn. lia.
Qed.

(** Three enemies, two of them on the player. *)
Definition crowded : Game :=
  set_enemies [mkEnemy 400 300; mkEnemy 100 100; mkEnemy 405 300] (initial sampleHost).

(** The state after a blow that killed the player. *)
Definition dead : Game :=
  set_gameState GameOver
    (set_player (Player.set_hp 0 (new_Player sampleHost)) (initial sampleHost)).

Lemma contact_pass_outcome_witness :
  (enemies <$> enemiesVsPlayer sampleHost crowded) = Ok [mkEnemy 100 100]
  ∧ (score <$> enemiesVsPlayer sampleHost crowded) = Ok 20%Z
  ∧ ((fun s => Player.hp (player s)) <$> enemiesVsPlayer sampleHost crowded)
    = Ok (100 - 10).
Proof.
  assert (A : 0 < Player.invulnerableTime (player crowded)) by numerals.
  destruct (contact_pass_outcome sampleHost crowded A)
    as (s' & -> & He & _ & Hs & Hp & _).
  cbn [fmap Result_fmap]. rewrite He, Hs, Hp. repeat split.
Defined.

Lemma takeDamage_unprotected_witness :
  (Player_takeDamage sampleHost 10 (initial sampleHost)).1 = false
  ∧ Player.hp (player (Player_takeDamage sampleHost 10 (initial sampleHost)).2) = 100 - 10.
Proof.
  assert (A : protected (player (initial sampleHost)) = false) by numerals.
  destruct (takeDamage_unprotected sampleHost 10 (initial sampleHost) A) as (H1 & H2 & _).
  rewrite H1, H2. split; reflexivity.
Defined.

Lemma run_never_faults_witness :
  ∃ s', run sampleHost session (initial sampleHost) = Ok s'.
Proof.
  exact (run_never_faults sampleHost session (initial sampleHost) sqrt_up_nonzero).
Defined.

Lemma afterimages_bounded_witness :
  (length (Player.ghostAfterimages
             (player (stateOr (initial sampleHost)
                        (run sampleHost session (initial sampleHost))))) ≤ 5)%nat.
Proof.
  apply (afterimages_bounded sampleHost session). vm_compute. reflexivity.
Defined.

Lemma enemies_capped_witness :
  (length (enemies (stateOr (initial sampleHost)
                      (run sampleHost session (initial sampleHost)))) ≤ 5)%nat.
Proof.
  apply (enemies_capped sampleHost session). vm_compute. reflexivity.
Defined.

Lemma counters_sane_witness :
  (0 <= score (stateOr (initial sampleHost)
                 (run sampleHost session (initial sampleHost))))%Z.
Proof.
  set (s := stateOr (initial sampleHost) (run sampleHost session (initial sampleHost))).
  assert (A : run sampleHost session (initial sampleHost) = Ok s)
    by (vm_compute; reflexivity).
  now destruct (counters_sane sampleHost session s A) as (H & _).
Defined.

Lemma wave_never_advances_witness :
  wave (stateOr (initial sampleHost) (run sampleHost session (initial sampleHost))) = 1%Z.
Proof.
  set (s := stateOr (initial sampleHost) (run sampleHost session (initial sampleHost))).
  assert (A : run sampleHost session (initial sampleHost) = Ok s)
    by (vm_compute; reflexivity).
  now destruct (wave_never_advances sampleHost session s A) as (H & _).
Defined.

Lemma player_in_bounds_witness :
  15 <= Player.x (player dashStarted) ∧ Player.x (player dashStarted) <= 800 / 1 - 15.
Proof.
  assert (A : Player_update sampleHost 0.1 shiftHeld = Ok dashStarted)
    by (vm_compute; reflexivity).
  destruct (player_in_bounds sampleHost 0.1 shiftHeld dashStarted A)
    as (_ & H1 & _ & H2 & _).
  split; [exact H1 | apply H2; numerals].
Defined.

Lemma pause_twice_resumes_witness :
  gameState dead = GameOver
  ∧ isPlaying (onKeyDown sampleHost "p" (onKeyDown sampleHost "p" dead)) = true
  ∧ Player.hp (player (onKeyDown sampleHost "p" (onKeyDown sampleHost "p" dead))) = 0.
Proof.
  assert (A : paused dead = false) by reflexivity.
  destruct (pause_twice_resumes sampleHost dead A) as (_ & _ & H1 & H2 & _).
  split; [reflexivity|]. split; [exact H1 | now rewrite H2].
Defined.

Lemma paused_frames_freeze_witness :
  run sampleHost [Frame 16; Frame 32; Frame 48] dead = Ok (set_lastTime 48 dead).
Proof.
  assert (A : isPlaying dead = false) by reflexivity.
  exact (paused_frames_freeze sampleHost [16; 32; 48] dead A).
Defined.

Lemma new_Enemy_on_edge_witness :
  12 <= Enemy.radius (new_Enemy sampleHost (initial sampleHost)).1
  ∧ Enemy.radius (new_Enemy sampleHost (initial sampleHost)).1 <= 20.
Proof.
  assert (A1 : 0 < dpr sampleHost) by numerals.
  assert (A2 : 0 < canvas_width sampleHost) by numerals.
  assert (A3 : 0 < canvas_height sampleHost) by numerals.
  destruct (new_Enemy_on_edge sampleHost (initial sampleHost)
              random_table_range A1 A2 A3) as (H1 & H2 & _).
  split; assumption.
Defined.
